(** * cube.js: the [Cube] class, embedded and verified

    The development follows [src/cube.js].  ECMAScript Numbers are IEEE 754
    binary64 values, taken here as Rocq's primitive [float]; objects live in
    a store and are reached through references; the host's timers and
    promise jobs are an explicit event loop driven by a simulated clock; the
    host's [Math.pow] is a parameter, with the accuracy that is assumed of it
    stated where it is used. *)

From Stdlib Require Import ZArith Bool Floats.
From stdpp Require Import base option list gmap.

Local Open Scope Z_scope.

(** ** ECMAScript values and arithmetic *)

(** The values the program computes with: [undefined], [null], the booleans
    and the Numbers.  They are closed under the arithmetic of the class, and
    the promises of [testPromise] hold no others. *)
Inductive value : Type :=
  | Undefined
  | Null
  | Bool (b : bool)
  | Num (x : float).

(** ECMAScript's [ToNumber]. *)
Definition ToNumber (v : value) : float :=
  match v with
  | Undefined => nan
  | Null => 0%float
  | Bool true => 1%float
  | Bool false => 0%float
  | Num x => x
  end.

(** [a + b] on these values: with no string among them, both operands are
    converted and added as Numbers. *)
Definition js_add (a b : value) : value :=
  Num (ToNumber a + ToNumber b)%float.

(** [a * b] on these values. *)
Definition js_mul (a b : value) : value :=
  Num (ToNumber a * ToNumber b)%float.

(** Any ECMAScript value, as a caller may pass one to the constructor or to
    a method: one of the values above, a BigInt, a String (its sequence of
    code units), a Symbol, or a reference to an object. *)
Inductive any : Type :=
  | Primitive (v : value)
  | BigInt (z : Z)
  | Str (units : list N)
  | Symbol (id : nat)
  | Object (ref : nat).

Coercion Primitive : value >-> any.

(** Results are written [Some (v, w)]: the expected type reaches [v], so that
    a value stands where any operand may. *)
#[local] Arguments pair {A B}%_type_scope & _ _.
#[local] Arguments Some {A}%_type_scope & _.

(** The operators on arbitrary operands.  [None] stands for no result in
    this development: either the operator throws a [TypeError] (a BigInt
    mixed with a Number, a Symbol), or it needs a conversion that is not
    modelled (a String to a Number, a Number or a BigInt to a String, an
    object to a primitive, which may run code of the object). *)

(** [ToNumber], as [Math.pow] applies it to its arguments. *)
Definition any_ToNumber (a : any) : option float :=
  match a with
  | Primitive v => Some (ToNumber v)
  | _ => None
  end.

(** [ToString] where it is a constant or the identity. *)
Definition any_ToString (a : any) : option (list N) :=
  match a with
  | Primitive Undefined => Some [117; 110; 100; 101; 102; 105; 110; 101; 100]%N
  | Primitive Null => Some [110; 117; 108; 108]%N
  | Primitive (Bool true) => Some [116; 114; 117; 101]%N
  | Primitive (Bool false) => Some [102; 97; 108; 115; 101]%N
  | Str s => Some s
  | _ => None
  end.

(** [a * b]: two BigInts are multiplied as integers, two of the values
    above as Numbers. *)
Definition any_mul (a b : any) : option any :=
  match a, b with
  | Primitive x, Primitive y => Some (Primitive (js_mul x y))
  | BigInt x, BigInt y => Some (BigInt (x * y))
  | _, _ => None
  end.

(** [a + b]: concatenation as soon as one operand is a String, else the
    sum of two BigInts or of two Numbers. *)
Definition any_add (a b : any) : option any :=
  match a, b with
  | Str _, _ | _, Str _ =>
      match any_ToString a, any_ToString b with
      | Some s, Some t => Some (Str (s ++ t))
      | _, _ => None
      end
  | Primitive x, Primitive y => Some (Primitive (js_add x y))
  | BigInt x, BigInt y => Some (BigInt (x + y))
  | _, _ => None
  end.

(** ** The host's [Math.pow]

    ECMAScript fixes [Math.pow(base, 3)] where the base is NaN, a zero or an
    infinity, and leaves it elsewhere to the host as an approximation of the
    cube.  Hosts differ there: the cube of 208065 lies halfway between two
    binary64 numbers, and the libraries that hosts rely on are found on
    either.  So no formula is taken for the host here.  What is asked of a
    host, [conforming] below, is the accuracy that the libraries in use
    document, an error under one unit in the last place: the result is the
    exact cube of the base rounded to binary64 one way or the other. *)

(** The sign of a binary64 value, [None] for NaN. *)
Definition sign_of (x : spec_float) : option bool :=
  match x with
  | S754_zero s | S754_infinity s | S754_finite s _ _ => Some s
  | S754_nan => None
  end.

(** How a magnitude that was cut is finished: left as it is, or one more
    unless the cut was exact. *)
Definition toward_zero (m : Z) (l : location) : Z := m.

Definition away_from_zero (m : Z) (l : location) : Z :=
  match l with
  | loc_Exact => m
  | loc_Inexact _ => m + 1
  end.

(** A way to finish that adds one at most, and nothing to an exact cut. *)
Definition modest (choose : Z -> location -> Z) : Prop :=
  forall m l, choose m l = m \/ (l <> loc_Exact /\ choose m l = m + 1).

(** The number [m * 2 ^ e] with the sign [s], rounded to binary64 as
    [choose] says.  With [round_nearest_even] this is the library's
    [binary_round_aux]. *)
Definition round_with (choose : Z -> location -> Z) (s : bool) (m e : Z)
  : spec_float :=
  let '(mrs1, e1) := shr_fexp prec emax m e loc_Exact in
  let '(mrs2, e2) :=
    shr_fexp prec emax (choose (shr_m mrs1) (loc_of_shr_record mrs1)) e1
             loc_Exact in
  match shr_m mrs2 with
  | Z0 => S754_zero s
  | Zpos q => if e2 <=? emax - prec then S754_finite s q e2 else S754_infinity s
  | Zneg _ => S754_nan
  end.

(** [r] is a cube of [x] for a host: [x] itself when [x] is NaN, a zero or
    an infinity, and else the exact cube, of mantissa [m ^ 3] and exponent
    [3 * e], rounded toward zero or away from it. *)
Definition cube_of (x r : spec_float) : Prop :=
  match x with
  | S754_finite s m e =>
      r = round_with toward_zero s (Zpos m ^ 3) (3 * e)
      \/ r = round_with away_from_zero s (Zpos m ^ 3) (3 * e)
  | _ => r = x
  end.

Definition conforming (pow : float -> float -> float) : Prop :=
  forall x, cube_of (Prim2SF x) (Prim2SF (pow x 3%float)).

(** The binary64 number [c] is the cube of [x] with nothing lost: the signs
    agree and [m' * 2 ^ e' = m ^ 3 * 2 ^ (3 * e)], where [e'] is [3 * e] at
    least. *)
Definition exact_cube (x c : spec_float) : Prop :=
  match x, c with
  | S754_finite s m e, S754_finite s' m' e' =>
      s' = s /\ 3 * e <= e' /\ Zpos m ^ 3 = Zpos m' * 2 ^ (e' - 3 * e)
  | _, _ => False
  end.

(** The integer a Number stands for, when it is one. *)
Definition Z_of_Number (x : float) : option Z :=
  match Prim2SF x with
  | S754_zero _ => Some 0
  | S754_finite s m e =>
      if 0 <=? e then Some (cond_Zopp s (Zpos m * 2 ^ e))
      else if Zpos m mod 2 ^ (- e) =? 0
           then Some (cond_Zopp s (Zpos m / 2 ^ (- e)))
           else None
  | _ => None
  end.

(** A host to run the class on: its [Math.pow] gives the power rounded to
    the nearest binary64 number, ties to even, for the exponents that are
    natural numbers, and is not provided (NaN) for the others, which the
    class does not pass. *)
Definition reference_pow (base exponent : float) : float :=
  match Z_of_Number exponent with
  | Some 0 => 1%float
  | Some (Zpos k) =>
      match Prim2SF base with
      | S754_finite s m e =>
          SF2Prim (round_with round_nearest_even (s && Z.odd (Zpos k))
                              (Zpos m ^ Zpos k) (Zpos k * e))
      | S754_zero s => SF2Prim (S754_zero (s && Z.odd (Zpos k)))
      | S754_infinity s => SF2Prim (S754_infinity (s && Z.odd (Zpos k)))
      | S754_nan => nan
      end
  | _ => nan
  end.

(** ** The host: timers, promises and the microtask queue *)

(** Promises are known by the order of their creation. *)
Abbreviation pid := nat.

(** The function values created by [testPromise], with what they close
    over: the timer callback [() => { resolve(3); }] holds the resolving
    function of the promise under construction, and [result => result * 2]
    holds nothing. *)
Inductive closure : Type :=
  | timeout_handler (resolve : pid)
  | then_handler.

Inductive promise_state : Type :=
  | Pending
  | Fulfilled (v : value)
  | Rejected (reason : value).

(** A reaction registered by [then]: the handler to run on fulfilment and the
    derived promise that receives its outcome.  No reaction of the program
    handles a rejection, which is passed on to the derived promise. *)
Record reaction : Type := mkReaction {
  on_fulfilled : closure;
  derived : pid
}.

Record promise : Type := mkPromise {
  state : promise_state;
  reactions : list reaction
}.

Record timer : Type := mkTimer {
  due : Z;
  callback : closure
}.

Inductive settlement : Type :=
  | fulfilled_with (v : value)
  | rejected_with (reason : value).

(** A promise reaction job waiting in the microtask queue. *)
Record job : Type := mkJob {
  job_reaction : reaction;
  job_argument : settlement
}.

(** How a call ends: [return v] or [throw e]. *)
Inductive completion : Type :=
  | Normal (v : value)
  | Throw (e : value).

(** The event loop: a clock in milliseconds, the timers set and not yet
    fired in the order they were set, the promises by identifier, and the
    queue of jobs. *)
Record event_loop : Type := mkLoop {
  now : Z;
  timers : list timer;
  promises : list promise;
  jobs : list job
}.

Definition empty_loop : event_loop := mkLoop 0 [] [] [].

Definition promise_state_of (p : pid) (l : event_loop) : option promise_state :=
  state <$> promises l !! p.

(** The promise created by [new Promise] or by [then]: pending, with no
    reaction, under the next free identifier. *)
Definition new_promise (l : event_loop) : pid * event_loop :=
  (List.length (promises l),
   mkLoop (now l) (timers l) (promises l ++ [mkPromise Pending []]) (jobs l)).

(** [setTimeout(cb, delay)]. *)
Definition setTimeout (cb : closure) (delay : Z) (l : event_loop)
  : event_loop :=
  mkLoop (now l) (timers l ++ [mkTimer (now l + delay) cb]) (promises l)
         (jobs l).

Definition settled_state (s : settlement) : promise_state :=
  match s with
  | fulfilled_with v => Fulfilled v
  | rejected_with e => Rejected e
  end.

(** The resolving functions of a promise, called with a primitive value: a
    pending promise takes the settlement and its reactions become jobs; a
    settled promise is left as it is. *)
Definition settle (p : pid) (s : settlement) (l : event_loop) : event_loop :=
  match promises l !! p with
  | Some (mkPromise Pending rs) =>
      mkLoop (now l) (timers l)
             (<[p := mkPromise (settled_state s) []]> (promises l))
             (jobs l ++ map (fun r => mkJob r s) rs)
  | _ => l
  end.

(** [new Promise(executor)]: the executor runs at once with the resolving
    functions of the new promise, which is rejected if the executor throws. *)
Definition new_Promise (executor : pid -> event_loop -> completion * event_loop)
    (l : event_loop) : pid * event_loop :=
  let '(p, l1) := new_promise l in
  match executor p l1 with
  | (Normal _, l2) => (p, l2)
  | (Throw e, l2) => (p, settle p (rejected_with e) l2)
  end.

(** [p.then(h)]. *)
Definition then_ (p : pid) (h : closure) (l : event_loop) : pid * event_loop :=
  let '(d, l1) := new_promise l in
  let r := mkReaction h d in
  (d,
   match promises l1 !! p with
   | Some (mkPromise Pending rs) =>
       mkLoop (now l1) (timers l1)
              (<[p := mkPromise Pending (rs ++ [r])]> (promises l1)) (jobs l1)
   | Some (mkPromise (Fulfilled v) _) =>
       mkLoop (now l1) (timers l1) (promises l1)
              (jobs l1 ++ [mkJob r (fulfilled_with v)])
   | Some (mkPromise (Rejected e) _) =>
       mkLoop (now l1) (timers l1) (promises l1)
              (jobs l1 ++ [mkJob r (rejected_with e)])
   | None => l1
   end).

(** Calling a function value with one argument. *)
Definition call_closure (c : closure) (arg : value) (l : event_loop)
  : completion * event_loop :=
  match c with
  | timeout_handler resolve =>
      (Normal Undefined, settle resolve (fulfilled_with (Num 3)) l)
  | then_handler => (Normal (js_mul arg (Num 2)), l)
  end.

(** One promise reaction job. *)
Definition run_job (j : job) (l : event_loop) : event_loop :=
  let d := derived (job_reaction j) in
  match job_argument j with
  | fulfilled_with v =>
      match call_closure (on_fulfilled (job_reaction j)) v l with
      | (Normal r, l1) => settle d (fulfilled_with r) l1
      | (Throw e, l1) => settle d (rejected_with e) l1
      end
  | rejected_with e => settle d (rejected_with e) l
  end.

(** The microtask checkpoint: jobs run first in, first out until the queue
    is empty.  [None] when the fuel runs out first. *)
Fixpoint drain (fuel : nat) (l : event_loop) : option event_loop :=
  match jobs l with
  | [] => Some l
  | j :: js =>
      match fuel with
      | O => None
      | S f => drain f (run_job j (mkLoop (now l) (timers l) (promises l) js))
      end
  end.

(** The timer that fires next, earliest due time first and in the order set
    among equals, with the timers that stay. *)
Fixpoint next_timer (ts : list timer) : option (timer * list timer) :=
  match ts with
  | [] => None
  | t :: ts' =>
      match next_timer ts' with
      | Some (t', rest) =>
          if due t' <? due t then Some (t', t :: rest) else Some (t, ts')
      | None => Some (t, [])
      end
  end.

(** The timers due up to [target] fire in turn, each at its due time and
    followed by a microtask checkpoint; the clock then stands at [target]. *)
Fixpoint run_timers (fuel : nat) (target : Z) (l : event_loop)
  : option event_loop :=
  match fuel with
  | O => None
  | S f =>
      match next_timer (timers l) with
      | Some (t, rest) =>
          if due t <=? target then
            let l1 :=
              mkLoop (Z.max (now l) (due t)) rest (promises l) (jobs l) in
            match drain f (snd (call_closure (callback t) Undefined l1)) with
            | Some l2 => run_timers f target l2
            | None => None
            end
          else Some (mkLoop target (timers l) (promises l) (jobs l))
      | None => Some (mkLoop target (timers l) (promises l) (jobs l))
      end
  end.

(** The running script returns to the host and [ms] milliseconds pass on the
    clock: the jobs that wait run first, then the timers that fall due. *)
Definition advance (fuel : nat) (ms : Z) (l : event_loop) : option event_loop :=
  match drain fuel l with
  | Some l1 => run_timers fuel (now l + ms) l1
  | None => None
  end.

(** Fuel that is enough for [advance]: every timer, job and registered
    reaction costs one unit. *)
Definition budget (l : event_loop) : nat :=
  S (List.length (timers l) + List.length (jobs l)
     + list_sum (map (fun p => List.length (reactions p)) (promises l))).

(** ** The object store *)

(** References to objects. *)
Abbreviation loc := nat.

(** What the property [add] of an instance resolves to: the method of
    [Cube.prototype], or a recording wrapper installed over it. *)
Inductive fn : Type :=
  | Cube_prototype_add
  | spy_on (wrapped : fn).

(** An instance of [Cube]: its field, and the own property [add] when one
    shadows the prototype's. *)
Record Cube : Type := mkCube {
  length : any;
  own_add : option fn
}.

(** One recorded call of a wrapped [add]. *)
Record call : Type := mkCall {
  call_this : loc;
  call_arg1 : any;
  call_arg2 : any
}.

Record world : Type := mkWorld {
  heap : gmap loc Cube;
  calls : list call;
  loop : event_loop
}.

Definition empty_world : world := mkWorld ∅ [] empty_loop.

(** ** Computations over the world *)

(** A computation either yields a result and a new world, or yields
    nothing: it is stuck on a reference that is not in the store, or an
    operator in it has no result (see [any_add]), or a library call throws. *)
Definition M (A : Type) : Type := world -> option (A * world).

Definition ret {A} (a : A) : M A := fun w => Some (a, w).

Definition bind {A B} (m : M A) (k : A -> M B) : M B :=
  fun w => match m w with
           | Some (a, w') => k a w'
           | None => None
           end.

Notation "'let*' x ':=' m 'in' k" := (bind m (fun x => k))
  (at level 10, x name, m at level 100, k at level 200).

Definition fail {A} : M A := fun _ => None.

(** The result of an operator, when it has one. *)
Definition of_option {A} (o : option A) : M A :=
  match o with
  | Some a => ret a
  | None => fail
  end.

Definition get_object (l : loc) : M Cube :=
  fun w => match heap w !! l with
           | Some o => Some (o, w)
           | None => None
           end.

Definition record_call (c : call) : M unit :=
  fun w => Some (tt, mkWorld (heap w) (calls w ++ [c]) (loop w)).

(** A step of the host lifted to the world. *)
Definition on_loop {A} (f : event_loop -> A * event_loop) : M A :=
  fun w => let '(a, l) := f (loop w) in
           Some (a, mkWorld (heap w) (calls w) l).

(** ** The class [Cube] *)

Section Host.

(** The [Math.pow] of the host the class runs on. *)
Variable Math_pow : float -> float -> float.

(** [new Cube(length)]: a fresh object, whose constructor stores the
    argument in the field [length]. *)
Definition new_Cube (length : any) : M loc :=
  fun w => let this := fresh (dom (heap w)) in
           Some (this, mkWorld (<[this := mkCube length None]> (heap w))
                               (calls w) (loop w)).

(** [add(num1, num2) { return num1 + num2; }] *)
Definition add (this : loc) (num1 num2 : any) : M any :=
  of_option (any_add num1 num2).

(** Calling a value of the property [add] on [this]. *)
Fixpoint call_fn (f : fn) (this : loc) (num1 num2 : any) : M any :=
  match f with
  | Cube_prototype_add => add this num1 num2
  | spy_on g =>
      let* _ := record_call (mkCall this num1 num2) in
      call_fn g this num1 num2
  end.

(** The property [add] seen from an instance: its own, or the prototype's. *)
Definition lookup_add (o : Cube) : fn :=
  match own_add o with
  | Some f => f
  | None => Cube_prototype_add
  end.

(** The method call [this.add(num1, num2)]: the property is looked up on
    the instance, and what it holds is called. *)
Definition invoke_add (this : loc) (num1 num2 : any) : M any :=
  let* o := get_object this in
  call_fn (lookup_add o) this num1 num2.

(** [callAanotherMethod(num1, num2) { return this.add(num1, num2); }] *)
Definition callAanotherMethod (this : loc) (num1 num2 : any) : M any :=
  invoke_add this num1 num2.

(** [getSideLength() { return this.length; }] *)
Definition getSideLength (this : loc) : M any :=
  let* o := get_object this in
  ret (length o).

(** [getSurfaceArea() { return (this.length * this.length) * 6; }] *)
Definition getSurfaceArea (this : loc) : M any :=
  let* o := get_object this in
  let* square := of_option (any_mul (length o) (length o)) in
  of_option (any_mul square (Num 6)).

(** [getVolume() { return Math.pow(this.length, 3); }] *)
Definition getVolume (this : loc) : M any :=
  let* o := get_object this in
  let* base := of_option (any_ToNumber (length o)) in
  ret (Primitive (Num (Math_pow base 3))).

(** [testPromise = function() { return new Promise((resolve, reject) => {
      setTimeout(() => { resolve(3); }, 1000);
    }).then(result => { return result * 2; }); }] *)
Definition testPromise (this : loc) : M pid :=
  let* p :=
    on_loop (new_Promise (fun resolve l =>
      (Normal Undefined, setTimeout (timeout_handler resolve) 1000 l))) in
  on_loop (then_ p then_handler).

(** [sinon.spy(obj, 'add')]: the property [add] of the object becomes a
    wrapper that records each call and passes it on.  The library throws a
    [TypeError] when the property already holds a wrapper. *)
Definition sinon_spy (obj : loc) : M unit :=
  fun w => match heap w !! obj with
           | Some o =>
               match lookup_add o with
               | Cube_prototype_add =>
                   let o' :=
                     mkCube (length o) (Some (spy_on Cube_prototype_add)) in
                   Some (tt,
                         mkWorld (<[obj := o']> (heap w)) (calls w) (loop w))
               | spy_on _ => None
               end
           | None => None
           end.

(** Time passing for the whole world. *)
Definition tick (fuel : nat) (ms : Z) : M unit :=
  fun w => match advance fuel ms (loop w) with
           | Some l => Some (tt, mkWorld (heap w) (calls w) l)
           | None => None
           end.

(** ** Operations and scripts *)

(** The methods of the class as a caller names them. *)
Inductive operation : Type :=
  | op_add (num1 num2 : any)
  | op_callAanotherMethod (num1 num2 : any)
  | op_getSideLength
  | op_getSurfaceArea
  | op_getVolume
  | op_testPromise.

Inductive outcome : Type :=
  | returned (v : any)
  | promised (p : pid).

(** [obj.m(..)] for each method [m]. *)
Definition perform (op : operation) (this : loc) : M outcome :=
  match op with
  | op_add num1 num2 => let* v := invoke_add this num1 num2 in ret (returned v)
  | op_callAanotherMethod num1 num2 =>
      let* v := callAanotherMethod this num1 num2 in ret (returned v)
  | op_getSideLength => let* v := getSideLength this in ret (returned v)
  | op_getSurfaceArea => let* v := getSurfaceArea this in ret (returned v)
  | op_getVolume => let* v := getVolume this in ret (returned v)
  | op_testPromise => let* p := testPromise this in ret (promised p)
  end.

Definition accessor (op : operation) : bool :=
  match op with
  | op_getSideLength | op_getSurfaceArea | op_getVolume => true
  | _ => false
  end.

(** What a client can do to the world between two observations. *)
Inductive action : Type :=
  | do_call (this : loc) (op : operation)
  | do_new (length : any)
  | do_spy (obj : loc)
  | do_tick (fuel : nat) (ms : Z).

Definition act (a : action) : M unit :=
  match a with
  | do_call this op => let* _ := perform op this in ret tt
  | do_new v => let* _ := new_Cube v in ret tt
  | do_spy obj => sinon_spy obj
  | do_tick fuel ms => tick fuel ms
  end.

Fixpoint run_script (script : list action) : M unit :=
  match script with
  | [] => ret tt
  | a :: rest => let* _ := act a in run_script rest
  end.

(** ** Vocabulary of the properties *)

(** The Number nearest to an integer, the integer itself up to 2^53. *)
Definition Number_of_Z (z : Z) : float :=
  SF2Prim (binary_normalize prec emax z 0 false).

(** The integers from [-n] to [n]. *)
Definition integers_within (n : nat) : list Z :=
  map (fun k => Z.of_nat k - Z.of_nat n) (seq 0 (2 * n + 1)).

(** A world that holds one instance, of the given length, under reference 0. *)
Definition world_of (v : any) : world :=
  mkWorld {[ 0%nat := mkCube v None ]} [] empty_loop.

(** A run from the empty world, for its result. *)
Definition run {A} (m : M A) : option A := fst <$> m empty_world.

(** What a run gives to an observer of the host alone. *)
Definition loop_view {A} (r : option (A * world)) : option (A * event_loop) :=
  (fun '(a, w) => (a, loop w)) <$> r.

(** How many recording wrappers a value of [add] is under. *)
Fixpoint spy_depth (f : fn) : nat :=
  match f with
  | Cube_prototype_add => 0
  | spy_on g => S (spy_depth g)
  end.

(** What an accessor returns, as a function of the length alone; nothing
    where the product or the conversion to a Number has no result. *)
Definition accessor_result (op : operation) (length : any) : option outcome :=
  match op with
  | op_getSideLength => Some (returned length)
  | op_getSurfaceArea =>
      square ← any_mul length length; returned <$> any_mul square (Num 6)
  | _ => base ← any_ToNumber length; Some (returned (Num (Math_pow base 3)))
  end.

(** The objects of [w] are still there in [w'], each with its length. *)
Definition lengths_kept (w w' : world) : Prop :=
  forall this o, heap w !! this = Some o ->
    exists o', heap w' !! this = Some o' /\ length o' = length o.

(** Time does not run backwards. *)
Definition forward (a : action) : Prop :=
  match a with
  | do_tick _ ms => 0 <= ms
  | _ => True
  end.

(** Reactions registered and not yet turned into jobs. *)
Definition pending_reactions (ps : list promise) : nat :=
  list_sum (map (fun p => List.length (reactions p)) ps).

(** Jobs queued and reactions that may still become jobs. *)
Definition work (l : event_loop) : nat :=
  (List.length (jobs l) + pending_reactions (promises l))%nat.

(** The loop after a call of [testPromise]: two more promises, the first
    holding the doubling reaction for the second, and one more timer. *)
Definition after_testPromise (l : event_loop) : event_loop :=
  let p := List.length (promises l) in
  mkLoop (now l)
         (timers l ++ [mkTimer (now l + 1000) (timeout_handler p)])
         (promises l ++ [mkPromise Pending [mkReaction then_handler (S p)];
                         mkPromise Pending []])
         (jobs l).

(** Every promise named in the loop has been created. *)
Definition closure_ok (n : nat) (c : closure) : Prop :=
  match c with
  | timeout_handler q => (q < n)%nat
  | then_handler => True
  end.

Definition reaction_ok (n : nat) (r : reaction) : Prop :=
  closure_ok n (on_fulfilled r) /\ (derived r < n)%nat.

Definition well_formed (l : event_loop) : Prop :=
  let n := List.length (promises l) in
  Forall (fun t => closure_ok n (callback t)) (timers l)
  /\ Forall (fun pr => Forall (reaction_ok n) (reactions pr)) (promises l)
  /\ Forall (fun j => reaction_ok n (job_reaction j)) (jobs l).

(** *** The phases of one call of [testPromise]

    Below, [p1] is the promise made by [new Promise], [p2] the one returned
    by [then], and [T] the time at which the timer is due. *)

(** A function value that does not resolve [p]. *)
Definition spares (p : pid) (c : closure) : Prop := c <> timeout_handler p.

Definition reaction_spares (p : pid) (r : reaction) : Prop :=
  spares p (on_fulfilled r) /\ derived r <> p.

Definition foreign (p1 p2 : pid) (r : reaction) : Prop :=
  reaction_spares p1 r /\ reaction_spares p2 r.

Definition doubling (p2 : pid) : reaction := mkReaction then_handler p2.

Definition doubling_job (p2 : pid) : job :=
  mkJob (doubling p2) (fulfilled_with (Num 3)).

(** Before the timer fires: both promises are pending, the first one holds
    the doubling reaction, only timers due at [T] resolve it, and nothing
    else in the loop refers to either. *)
Record armed (p1 p2 : pid) (T : Z) (l : event_loop) : Prop := mkArmed {
  armed_p1 : promises l !! p1 = Some (mkPromise Pending [doubling p2]);
  armed_p2 : promises l !! p2 = Some (mkPromise Pending []);
  armed_timers :
    Forall (fun t => (callback t = timeout_handler p1 /\ due t = T)
                     \/ (spares p1 (callback t) /\ spares p2 (callback t)))
           (timers l);
  armed_reactions :
    forall q pr, q <> p1 -> promises l !! q = Some pr ->
                 Forall (foreign p1 p2) (reactions pr);
  armed_jobs : Forall (fun j => foreign p1 p2 (job_reaction j)) (jobs l)
}.

(** The timer of [testPromise] is set. *)
Definition timer_set (p1 : pid) (T : Z) (l : event_loop) : Prop :=
  Exists (fun t => callback t = timeout_handler p1 /\ due t = T) (timers l).

(** After the timer has fired: the doubling job is in the queue and the
    returned promise is still pending. *)
Record queued (p2 : pid) (l : event_loop) : Prop := mkQueued {
  queued_p2 : promises l !! p2 = Some (mkPromise Pending []);
  queued_timers : Forall (fun t => spares p2 (callback t)) (timers l);
  queued_reactions :
    forall q pr, promises l !! q = Some pr ->
                 Forall (reaction_spares p2) (reactions pr);
  queued_jobs :
    Forall (fun j => j = doubling_job p2
                     \/ reaction_spares p2 (job_reaction j))
           (jobs l);
  queued_job : Exists (fun j => j = doubling_job p2) (jobs l)
}.

(** After the doubling job has run. *)
Definition done (p2 : pid) (l : event_loop) : Prop :=
  exists rs, promises l !! p2 = Some (mkPromise (Fulfilled (Num 6)) rs).

(** The state of the promise returned by [testPromise] against the clock. *)
Definition tracked (p1 p2 : pid) (T : Z) (l : event_loop) : Prop :=
  (now l < T /\ armed p1 p2 T l /\ timer_set p1 T l)
  \/ (T <= now l /\ done p2 l).

(** The same without the clock. *)
Definition alive (p1 p2 : pid) (T : Z) (l : event_loop) : Prop :=
  (armed p1 p2 T l /\ timer_set p1 T l) \/ done p2 l.

(** *** Integers and scripts of calls *)

Definition is_integer (x : float) (z : Z) : bool :=
  match Z_of_Number x with
  | Some y => y =? z
  | None => false
  end.

(** [exact_cube], decided. *)
Definition exact_cubeb (x c : spec_float) : bool :=
  match x, c with
  | S754_finite s m e, S754_finite s' m' e' =>
      Bool.eqb s' s && (3 * e <=? e')
      && (Zpos m ^ 3 =? Zpos m' * 2 ^ (e' - 3 * e))
  | _, _ => false
  end.

(** The Number of [n] is [n], the product the surface area computes on it
    is the integer [6 * n * n], and the Number of [n * n * n] is that
    integer and the cube of the Number of [n] with nothing lost. *)
Definition exact_at (n : Z) : bool :=
  let x := Number_of_Z n in
  let c := Number_of_Z (n * n * n) in
  is_integer x n
  && is_integer (ToNumber (js_mul (js_mul (Num x) (Num x)) (Num 6)))
                (6 * n * n)
  && is_integer c (n * n * n)
  && ((n =? 0) || exact_cubeb (Prim2SF x) (Prim2SF c)).

(** A world that holds one instance whose [add] a spy has wrapped. *)
Definition spied_world_of (v : any) : world :=
  mkWorld {[ 0%nat := mkCube v (Some (spy_on Cube_prototype_add)) ]} []
          empty_loop.

(** One call of [callAanotherMethod] on [this] for each pair of arguments. *)
Definition delegations (this : loc) (args : list (value * value))
  : list action :=
  map (fun ab : value * value =>
         do_call this (op_callAanotherMethod (fst ab) (snd ab))) args.

(** *** Promises in the large *)

(** The promise [p] is pending while the clock reads less than [T] and
    fulfilled with 6 from [T] on. *)
Definition fulfilled_from (p : pid) (T : Z) (l : event_loop) : Prop :=
  (now l < T -> promise_state_of p l = Some Pending)
  /\ (T <= now l -> promise_state_of p l = Some (Fulfilled (Num 6))).

(** No promise is rejected and no job carries a rejection. *)
Definition no_rejection (l : event_loop) : Prop :=
  Forall (fun pr => forall e, state pr <> Rejected e) (promises l)
  /\ Forall (fun j => exists v, job_argument j = fulfilled_with v) (jobs l).

(** * Properties *)

(** ** Binary64 arithmetic *)

Lemma Prim2SF_inj (x y : float) : Prim2SF x = Prim2SF y -> x = y.
Proof.
  intros H. rewrite <- (SF2Prim_Prim2SF x), <- (SF2Prim_Prim2SF y).
  now rewrite H.
Qed.

Lemma SFmul_comm (prec emax : Z) (x y : spec_float) :
  SFmul prec emax x y = SFmul prec emax y x.
Proof.
  destruct x as [sx|sx| |sx mx ex], y as [sy|sy| |sy my ey]; simpl;
    rewrite ?(xorb_comm sx sy); try reflexivity.
  now rewrite (Pos.mul_comm mx my), (Z.add_comm ex ey).
Qed.

Lemma float_mul_comm (x y : float) : (x * y = y * x)%float.
Proof.
  apply Prim2SF_inj. rewrite !mul_spec. apply SFmul_comm.
Qed.

Section Rounding.
Variables prec emax : Z.

Lemma shr_1_nonneg (mrs : shr_record) :
  0 <= shr_m mrs -> 0 <= shr_m (shr_1 mrs).
Proof.
  destruct mrs as [m r s]; simpl.
  destruct m as [|[p|p|]|[p|p|]]; simpl; lia.
Qed.

Lemma iter_shr_1_nonneg (p : positive) :
  forall mrs, 0 <= shr_m mrs -> 0 <= shr_m (SpecFloat.iter_pos shr_1 p mrs).
Proof.
  induction p as [p IH|p IH|]; intros mrs H; simpl.
  - apply IH, IH, shr_1_nonneg, H.
  - apply IH, IH, H.
  - apply shr_1_nonneg, H.
Qed.

Lemma shr_fexp_nonneg (m e : Z) (l : location) :
  0 <= m -> 0 <= shr_m (fst (shr_fexp prec emax m e l)).
Proof.
  intros H. unfold shr_fexp, shr.
  assert (H0 : 0 <= shr_m (shr_record_of_loc m l))
    by (destruct l as [|[| |]]; exact H).
  destruct (fexp prec emax (Zdigits2 m + e) - e) as [|p|p]; simpl;
    auto using iter_shr_1_nonneg.
Qed.

Lemma round_nearest_even_nonneg (m : Z) (l : location) :
  0 <= m -> 0 <= round_nearest_even m l.
Proof.
  intros H. destruct l as [|[| |]]; simpl; try lia.
  destruct (Z.even m); lia.
Qed.

(** Rounding a magnitude never loses the sign it is given. *)
Lemma binary_round_aux_sign (s : bool) (m e : Z) (l : location) :
  0 <= m -> sign_of (binary_round_aux prec emax s m e l) = Some s.
Proof.
  intros H. unfold binary_round_aux.
  pose proof (shr_fexp_nonneg m e l H) as H1.
  destruct (shr_fexp prec emax m e l) as [mrs1 e1]; simpl in H1.
  pose proof (shr_fexp_nonneg _ e1 loc_Exact
                (round_nearest_even_nonneg _ (loc_of_shr_record mrs1) H1))
    as H2.
  destruct (shr_fexp prec emax _ e1 loc_Exact) as [mrs2 e2]; simpl in H2.
  destruct (shr_m mrs2) as [|q|q]; [reflexivity| |lia].
  now destruct (e2 <=? emax - prec).
Qed.
End Rounding.

(** ** Rounding a magnitude to binary64 *)

Lemma digits2_pos_size (p : positive) : digits2_pos p = Pos.size p.
Proof. induction p; simpl; congruence. Qed.

Lemma Zdigits2_log2 (m : Z) : 0 < m -> Zdigits2 m = Z.log2 m + 1.
Proof.
  destruct m as [|p|p]; try lia. intros _. simpl.
  rewrite digits2_pos_size. destruct p; simpl; lia.
Qed.

Lemma Zdigits2_spec (m : Z) :
  0 < m -> 2 ^ (Zdigits2 m - 1) <= m < 2 ^ Zdigits2 m.
Proof.
  intros H. rewrite (Zdigits2_log2 m H).
  replace (Z.log2 m + 1 - 1) with (Z.log2 m) by lia.
  apply (Z.log2_spec m H).
Qed.

Lemma Zdigits2_unique (m d : Z) :
  2 ^ (d - 1) <= m < 2 ^ d -> 0 < d -> Zdigits2 m = d.
Proof.
  intros H D.
  assert (P : 0 < m) by (pose proof (Z.pow_pos_nonneg 2 (d - 1)); lia).
  rewrite (Zdigits2_log2 m P).
  rewrite (Z.log2_unique m (d - 1)); [lia|lia|].
  now replace (Z.succ (d - 1)) with d by lia.
Qed.

Lemma Zdigits2_pos (m : Z) : 0 < m -> 0 < Zdigits2 m.
Proof. destruct m; simpl; lia. Qed.

Lemma Zdigits2_shift (m k : Z) :
  0 < m -> 0 <= k -> Zdigits2 (m * 2 ^ k) = Zdigits2 m + k.
Proof.
  intros M K. pose proof (Zdigits2_spec m M) as [L U].
  pose proof (Zdigits2_pos m M) as D.
  apply Zdigits2_unique; [|lia].
  replace (Zdigits2 m + k - 1) with (Zdigits2 m - 1 + k) by lia.
  rewrite !Z.pow_add_r by lia.
  pose proof (Z.pow_pos_nonneg 2 k). nia.
Qed.

Lemma shr_1_div (mrs : shr_record) :
  0 <= shr_m mrs -> shr_m (shr_1 mrs) = shr_m mrs / 2.
Proof.
  destruct mrs as [m r s]; simpl. intros H. rewrite <- Z.div2_div.
  destruct m as [|[p|p|]|p]; simpl; try reflexivity; lia.
Qed.

Lemma pow2_pos (k : Z) : 0 <= k -> 0 < 2 ^ k.
Proof. intros H. now apply Z.pow_pos_nonneg. Qed.

Lemma pow2_xO (p : positive) : 2 ^ Z.pos p~0 = 2 ^ Z.pos p * 2 ^ Z.pos p.
Proof. rewrite Pos2Z.inj_xO, <- Z.pow_add_r by lia. f_equal. lia. Qed.

Lemma pow2_xI (p : positive) : 2 ^ Z.pos p~1 = 2 * (2 ^ Z.pos p * 2 ^ Z.pos p).
Proof.
  rewrite Pos2Z.inj_xI, Z.pow_add_r by lia.
  replace (2 * Z.pos p) with (Z.pos p~0) by lia.
  rewrite pow2_xO. change (2 ^ 1) with 2. lia.
Qed.

Lemma iter_shr_1_div (p : positive) :
  forall mrs, 0 <= shr_m mrs ->
    shr_m (SpecFloat.iter_pos shr_1 p mrs) = shr_m mrs / 2 ^ Zpos p.
Proof.
  induction p as [p IH|p IH|]; intros mrs H; simpl SpecFloat.iter_pos;
    try pose proof (pow2_pos (Z.pos p) ltac:(lia)) as P.
  - rewrite IH, IH, shr_1_div by auto using iter_shr_1_nonneg, shr_1_nonneg.
    rewrite !Z.div_div by lia. now rewrite pow2_xI, Z.mul_assoc.
  - rewrite IH, IH by auto using iter_shr_1_nonneg.
    rewrite !Z.div_div by lia. now rewrite pow2_xO.
  - rewrite shr_1_div by exact H. reflexivity.
Qed.

Lemma shr_1_exact (m : Z) :
  0 <= m ->
  shr_1 (Build_shr_record (2 * m) false false) = Build_shr_record m false false.
Proof. destruct m as [|p|p]; simpl; try reflexivity; lia. Qed.

Lemma iter_shr_1_exact (p : positive) :
  forall m, 0 <= m ->
    SpecFloat.iter_pos shr_1 p (Build_shr_record (m * 2 ^ Zpos p) false false)
    = Build_shr_record m false false.
Proof.
  induction p as [p IH|p IH|]; intros m H;
    try pose proof (pow2_pos (Z.pos p) ltac:(lia)) as P.
  - rewrite pow2_xI.
    replace (m * (2 * (2 ^ Z.pos p * 2 ^ Z.pos p)))
      with (2 * (m * 2 ^ Z.pos p * 2 ^ Z.pos p)) by lia.
    change (SpecFloat.iter_pos shr_1 p~1 ?x)
      with (SpecFloat.iter_pos shr_1 p (SpecFloat.iter_pos shr_1 p (shr_1 x))).
    rewrite shr_1_exact by nia. rewrite IH by nia. now apply IH.
  - rewrite pow2_xO, Z.mul_assoc.
    change (SpecFloat.iter_pos shr_1 p~0 ?x)
      with (SpecFloat.iter_pos shr_1 p (SpecFloat.iter_pos shr_1 p x)).
    rewrite IH by nia. now apply IH.
  - change (2 ^ 1) with 2. rewrite Z.mul_comm. now apply shr_1_exact.
Qed.

(** What [shr] does to a magnitude and to the exponent. *)
Lemma shr_shift (mrs : shr_record) (e n : Z) :
  0 <= shr_m mrs -> 0 <= n ->
  shr_m (fst (shr mrs e n)) = shr_m mrs / 2 ^ n /\ snd (shr mrs e n) = e + n.
Proof.
  intros H N. destruct n as [|p|p]; simpl; try lia.
  - rewrite Z.div_1_r. lia.
  - split; [now apply iter_shr_1_div|reflexivity].
Qed.

Lemma shr_exact (m e n : Z) :
  0 <= m -> 0 <= n ->
  shr (Build_shr_record (m * 2 ^ n) false false) e n
  = (Build_shr_record m false false, e + n).
Proof.
  intros H N. destruct n as [|p|p]; simpl; try lia.
  - now rewrite Z.mul_1_r, Z.add_0_r.
  - now rewrite iter_shr_1_exact.
Qed.

(** The digits of a quotient by a power of two. *)
Lemma Zdigits2_div (m n : Z) :
  0 < m -> 0 <= n -> n < Zdigits2 m ->
  0 < m / 2 ^ n /\ Zdigits2 (m / 2 ^ n) = Zdigits2 m - n.
Proof.
  intros M N D. pose proof (Zdigits2_spec m M) as [L U].
  pose proof (pow2_pos n N) as P.
  assert (B : 2 ^ (Zdigits2 m - n - 1) <= m / 2 ^ n < 2 ^ (Zdigits2 m - n)).
  { split.
    - apply Z.div_le_lower_bound; [lia|].
      rewrite <- Z.pow_add_r by lia.
      now replace (n + (Zdigits2 m - n - 1)) with (Zdigits2 m - 1) by lia.
    - apply Z.div_lt_upper_bound; [lia|].
      rewrite <- Z.pow_add_r by lia.
      now replace (n + (Zdigits2 m - n)) with (Zdigits2 m) by lia. }
  pose proof (pow2_pos (Zdigits2 m - n - 1) ltac:(lia)).
  split; [lia|]. apply Zdigits2_unique; [exact B|lia].
Qed.

Lemma div_pow2_small (m n : Z) :
  0 < m -> Zdigits2 m <= n -> m / 2 ^ n = 0.
Proof.
  intros M D. pose proof (Zdigits2_spec m M) as [L U].
  pose proof (Zdigits2_pos m M).
  apply Z.div_small. split; [lia|].
  apply Z.lt_le_trans with (1 := U). apply Z.pow_le_mono_r; lia.
Qed.

Lemma shr_fexp_spec (m e : Z) :
  0 <= m ->
  let n := fexp prec emax (Zdigits2 m + e) - e in
  let r := shr_fexp prec emax m e loc_Exact in
  (0 <= n -> shr_m (fst r) = m / 2 ^ n /\ snd r = e + n)
  /\ (n <= 0 -> shr_m (fst r) = m /\ snd r = e).
Proof.
  intros H n r. subst r. unfold shr_fexp. fold n. simpl shr_record_of_loc.
  split; intros N.
  - now apply shr_shift.
  - destruct n as [|p|p]; simpl; auto; lia.
Qed.

Ltac fexp_lia := unfold fexp, emin, prec, emax in *; lia.

Lemma round_with_valid (choose : Z -> location -> Z) (s : bool) (m e : Z) :
  modest choose -> 0 < m -> e <= fexp prec emax (Zdigits2 m + e) ->
  valid_binary (round_with choose s m e) = true.
Proof.
  intros C M E. unfold round_with.
  destruct (shr_fexp_spec m e ltac:(lia)) as [S1 _].
  specialize (S1 ltac:(lia)).
  destruct (shr_fexp prec emax m e loc_Exact) as [mrs1 e1].
  simpl in S1. destruct S1 as [M1 E1].
  set (d := Zdigits2 m) in *.
  set (m2 := choose (shr_m mrs1) (loc_of_shr_record mrs1)).
  assert (N2 : 0 <= m2).
  { subst m2. destruct (C (shr_m mrs1) (loc_of_shr_record mrs1)) as [->|[_ ->]];
      rewrite M1; pose proof (pow2_pos (fexp prec emax (d + e) - e) ltac:(lia));
      pose proof (Z.div_pos m (2 ^ (fexp prec emax (d + e) - e))); lia. }
  destruct (shr_fexp_spec m2 e1 N2) as [S2 S2'].
  (* the shape of the second magnitude *)
  assert (K : (m2 = 0 /\ -1074 <= e1)
              \/ (0 < m2 /\ fexp prec emax (Zdigits2 m2 + e1) = e1)
              \/ (m2 = 2 ^ 53 /\ -1074 <= e1)).
  { destruct (Z_lt_le_dec (fexp prec emax (d + e) - e) d) as [Lt|Ge].
    - destruct (Zdigits2_div m (fexp prec emax (d + e) - e) M ltac:(lia) Lt)
        as [P1 D1].
      rewrite <- M1 in P1, D1. fold d in D1.
      pose proof (Zdigits2_spec _ P1) as [L1 U1].
      pose proof (Zdigits2_pos _ P1) as DP.
      subst m2.
      destruct (C (shr_m mrs1) (loc_of_shr_record mrs1)) as [->|[_ ->]].
      + right. left. split; [exact P1|]. fexp_lia.
      + destruct (Z_lt_le_dec (shr_m mrs1 + 1) (2 ^ Zdigits2 (shr_m mrs1)))
          as [Lt2|Ge2].
        * right. left. split; [lia|].
          rewrite (Zdigits2_unique (shr_m mrs1 + 1) (Zdigits2 (shr_m mrs1)))
            by lia.
          fexp_lia.
        * assert (Q : shr_m mrs1 + 1 = 2 ^ Zdigits2 (shr_m mrs1)) by lia.
          destruct (Z.eq_dec (Zdigits2 (shr_m mrs1)) 53) as [D53|D53].
          -- right. right. rewrite Q, D53. split; [reflexivity|fexp_lia].
          -- right. left. split; [lia|].
             rewrite (Zdigits2_unique (shr_m mrs1 + 1)
                        (Zdigits2 (shr_m mrs1) + 1)); [fexp_lia| |lia].
             rewrite Q. replace (Zdigits2 (shr_m mrs1) + 1 - 1)
               with (Zdigits2 (shr_m mrs1)) by lia.
             split; [lia|]. apply Z.pow_lt_mono_r; lia.
    - pose proof (div_pow2_small m _ M Ge) as Z1. rewrite <- M1 in Z1.
      subst m2. rewrite Z1.
      destruct (C 0 (loc_of_shr_record mrs1)) as [->|[_ ->]].
      + left. split; [reflexivity|]. fexp_lia.
      + right. left. split; [lia|]. simpl Zdigits2. fexp_lia. }
  destruct (shr_fexp prec emax m2 e1 loc_Exact) as [mrs2 e2].
  simpl in S2, S2'.
  destruct K as [[Z2 B]|[[P2 F2]|[Q B]]].
  - destruct S2' as [-> ->]; [|now rewrite Z2].
    rewrite Z2. simpl Zdigits2. fexp_lia.
  - destruct S2' as [R2 ->]; [lia|]. rewrite R2.
    destruct m2 as [|q|q]; try lia.
    destruct (e1 <=? emax - prec) eqn:B; [|reflexivity].
    simpl. unfold bounded, canonical_mantissa. rewrite B.
    simpl in F2. rewrite F2. now rewrite Z.eqb_refl.
  - assert (D2 : Zdigits2 m2 = 54) by (now rewrite Q).
    rewrite D2 in S2.
    assert (N1 : fexp prec emax (54 + e1) - e1 = 1) by fexp_lia.
    rewrite N1 in S2.
    destruct S2 as [R2 ->]; [lia|]. rewrite R2, Q.
    change (2 ^ 53 / 2 ^ 1) with 4503599627370496.
    destruct (e1 + 1 <=? emax - prec) eqn:B'; [|reflexivity].
    simpl. unfold bounded, canonical_mantissa. rewrite B'.
    change (Z.pos (digits2_pos 4503599627370496)) with 53.
    rewrite andb_true_r. apply Z.eqb_eq. fexp_lia.
Qed.

Lemma modest_toward_zero : modest toward_zero.
Proof. intros m l. now left. Qed.

Lemma modest_away_from_zero : modest away_from_zero.
Proof. intros m [|c]; [now left|right]. split; [discriminate|reflexivity]. Qed.

Lemma modest_nearest_even : modest round_nearest_even.
Proof.
  intros m [|[| |]]; simpl; try (now left);
    try (destruct (Z.even m); [now left|]);
    right; (split; [discriminate|reflexivity]).
Qed.

Lemma shr_fexp_exact_nonneg (m e : Z) :
  0 <= m -> 0 <= shr_m (fst (shr_fexp prec emax m e loc_Exact)).
Proof.
  intros H. destruct (shr_fexp_spec m e H) as [S S'].
  destruct (Z_le_gt_dec 0 (fexp prec emax (Zdigits2 m + e) - e)) as [N|N].
  - destruct (S N) as [-> _].
    apply Z.div_pos; [exact H|now apply pow2_pos].
  - destruct S' as [-> _]; lia.
Qed.

(** Rounding either way keeps the sign it is given. *)
Lemma round_with_sign (choose : Z -> location -> Z) (s : bool) (m e : Z) :
  modest choose -> 0 <= m -> sign_of (round_with choose s m e) = Some s.
Proof.
  intros C M. unfold round_with.
  pose proof (shr_fexp_exact_nonneg m e M) as H1.
  destruct (shr_fexp prec emax m e loc_Exact) as [mrs1 e1]. simpl in H1.
  assert (H2 : 0 <= choose (shr_m mrs1) (loc_of_shr_record mrs1))
    by (destruct (C (shr_m mrs1) (loc_of_shr_record mrs1)) as [->|[_ ->]]; lia).
  pose proof (shr_fexp_exact_nonneg _ e1 H2) as H3.
  destruct (shr_fexp prec emax _ e1 loc_Exact) as [mrs2 e2]. simpl in H3.
  destruct (shr_m mrs2) as [|q|q]; [reflexivity| |lia].
  now destruct (e2 <=? emax - prec).
Qed.

(** A magnitude that is a binary64 number already is left as it is. *)
Lemma round_with_exact
    (choose : Z -> location -> Z) (s : bool) (m e : Z)
    (m' : positive) (e' : Z) :
  modest choose -> bounded prec emax m' e' = true ->
  e <= e' -> m = Zpos m' * 2 ^ (e' - e) ->
  round_with choose s m e = S754_finite s m' e'.
Proof.
  intros C B E M. unfold bounded, canonical_mantissa in B.
  apply andb_true_iff in B. destruct B as [B1 B2]. apply Z.eqb_eq in B1.
  assert (D : Zdigits2 m + e = Zpos (digits2_pos m') + e').
  { rewrite M, Zdigits2_shift by lia. simpl Zdigits2. lia. }
  unfold round_with, shr_fexp. rewrite D, B1. simpl shr_record_of_loc.
  rewrite M, shr_exact by lia. simpl loc_of_shr_record. simpl shr_m.
  destruct (C (Zpos m') loc_Exact) as [->|[N _]]; [|now elim N].
  simpl Zdigits2. replace (e + (e' - e)) with e' by lia.
  rewrite B1, Z.sub_diag. simpl. now rewrite B2.
Qed.

(** The cube of a binary64 mantissa has digits to spare. *)
Lemma cube_shift (m : positive) (e : Z) :
  bounded prec emax m e = true ->
  3 * e <= fexp prec emax (Zdigits2 (Zpos m ^ 3) + 3 * e).
Proof.
  intros B. unfold bounded, canonical_mantissa in B.
  apply andb_true_iff in B. destruct B as [B1 _]. apply Z.eqb_eq in B1.
  destruct (Z.eq_dec e (-1074)) as [->|N]; [fexp_lia|].
  assert (D : Zpos (digits2_pos m) = 53) by fexp_lia.
  pose proof (Zdigits2_spec (Zpos m) ltac:(lia)) as [L _].
  simpl Zdigits2 in L. rewrite D in L.
  assert (P : 0 < Zpos m ^ 3) by (apply Z.pow_pos_nonneg; lia).
  pose proof (Zdigits2_spec _ P) as [_ U].
  assert (Q : 2 ^ 156 <= Zpos m ^ 3).
  { change (2 ^ 156) with ((2 ^ (53 - 1)) ^ 3). apply Z.pow_le_mono_l. lia. }
  assert (156 < Zdigits2 (Zpos m ^ 3)).
  { pose proof (Zdigits2_pos _ P).
    apply (Z.pow_lt_mono_r_iff 2); lia. }
  fexp_lia.
Qed.

(** So a binary64 number that is the cube of [m * 2 ^ e] has an exponent of
    [3 * e] at least, as [exact_cube] has it. *)
Lemma cube_exponent (m m' : positive) (e e' : Z) :
  bounded prec emax m e = true -> bounded prec emax m' e' = true ->
  e' < 3 * e -> Zpos m' <> Zpos m ^ 3 * 2 ^ (3 * e - e').
Proof.
  intros B B' Lt E. pose proof (cube_shift m e B) as S.
  unfold bounded, canonical_mantissa in B'.
  apply andb_true_iff in B'. destruct B' as [C _]. apply Z.eqb_eq in C.
  assert (P : 0 < Zpos m ^ 3) by (apply Z.pow_pos_nonneg; lia).
  pose proof (Zdigits2_shift (Zpos m ^ 3) (3 * e - e') P ltac:(lia)) as D.
  rewrite <- E in D. simpl Zdigits2 in D at 1.
  replace (Zdigits2 (Zpos m ^ 3) + 3 * e)
    with (Zpos (digits2_pos m') + e') in S by lia.
  lia.
Qed.

Lemma round_nearest_directed (s : bool) (m e : Z) :
  round_with round_nearest_even s m e = round_with toward_zero s m e
  \/ round_with round_nearest_even s m e = round_with away_from_zero s m e.
Proof.
  unfold round_with. destruct (shr_fexp prec emax m e loc_Exact) as [mrs1 e1].
  destruct (loc_of_shr_record mrs1) as [|[| |]]; simpl; auto.
  destruct (Z.even (shr_m mrs1)); auto.
Qed.

(** When the cube of [x] is the binary64 number [c], a conforming host
    returns [c]. *)
Lemma conforming_exact (pow : float -> float -> float) (x c : float) :
  conforming pow -> exact_cube (Prim2SF x) (Prim2SF c) -> pow x 3%float = c.
Proof.
  intros C E. specialize (C x). apply Prim2SF_inj.
  pose proof (Prim2SF_valid c) as V.
  destruct (Prim2SF x) as [| | |s m e]; try contradiction.
  destruct (Prim2SF c) as [| | |s' m' e']; try contradiction.
  destruct E as (-> & E1 & E2). simpl in C, V.
  rewrite !(round_with_exact _ s _ _ m' e') in C;
    auto using modest_toward_zero, modest_away_from_zero.
  now destruct C.
Qed.

(** [exact_cube] at two given Numbers, by computation. *)
Ltac exact_cube_tac :=
  hnf; split; [reflexivity|];
  split; [vm_compute; discriminate|vm_compute; reflexivity].


(** The reference host conforms. *)
Lemma reference_pow_conforming : conforming reference_pow.
Proof.
  intros x. unfold reference_pow.
  change (Z_of_Number 3) with (Some 3).
  pose proof (Prim2SF_valid x) as V.
  destruct (Prim2SF x) as [s|s| |s m e] eqn:E; simpl cube_of;
    rewrite ?andb_true_r.
  - now destruct s.
  - now destruct s.
  - reflexivity.
  - rewrite Prim2SF_SF2Prim; [apply round_nearest_directed|].
    apply round_with_valid; [apply modest_nearest_even| |now apply cube_shift].
    apply Z.pow_pos_nonneg; lia.
Qed.

(** The product of two numbers that are neither NaN nor zero carries the
    exclusive or of their signs. *)
Lemma SFmul_sign (prec emax : Z) (x y : spec_float) (a b : bool) :
  sign_of x = Some a -> sign_of y = Some b ->
  (forall s, x <> S754_zero s) -> (forall s, y <> S754_zero s) ->
  sign_of (SFmul prec emax x y) = Some (xorb a b).
Proof.
  intros Hx Hy Nx Ny.
  destruct x as [sx|sx| |sx mx ex]; try discriminate; [now elim (Nx sx)| |];
    destruct y as [sy|sy| |sy my ey]; try discriminate;
    try (now elim (Ny sy)); simpl in *;
    injection Hx as <-; injection Hy as <-; try reflexivity.
  now apply binary_round_aux_sign.
Qed.

(** A Number below zero is a negative finite number or minus infinity. *)
Lemma negative_shape (L : float) :
  (L <? 0)%float = true ->
  Prim2SF L = S754_infinity true \/
  exists m e, Prim2SF L = S754_finite true m e.
Proof.
  rewrite ltb_spec. change (Prim2SF 0) with (S754_zero false).
  destruct (Prim2SF L) as [s|[|]| |[|] m e]; try discriminate; eauto.
Qed.

Lemma nonnegative_of_sign (x : float) :
  sign_of (Prim2SF x) = Some false -> (0 <=? x)%float = true.
Proof.
  rewrite leb_spec. change (Prim2SF 0) with (S754_zero false).
  destruct (Prim2SF x) as [s|s| |s m e]; simpl; try discriminate;
    now intros [= ->].
Qed.

Lemma negative_of_sign (x : float) :
  sign_of (Prim2SF x) = Some true ->
  (x <? 0)%float = true \/ x = (-0)%float.
Proof.
  rewrite ltb_spec. change (Prim2SF 0) with (S754_zero false).
  destruct (Prim2SF x) as [s|s| |s m e] eqn:E; simpl; try discriminate;
    intros [= ->]; auto.
  right. now apply Prim2SF_inj.
Qed.

(** The square of a negative Number is positive or zero or plus infinity,
    and so is six times it. *)
Lemma square_of_negative_sign (L : float) :
  (L <? 0)%float = true -> sign_of (Prim2SF (L * L)) = Some false.
Proof.
  intros H. rewrite mul_spec.
  destruct (negative_shape L H) as [E|(m & e & E)]; rewrite E;
    [reflexivity|].
  now apply (SFmul_sign _ _ _ _ true true).
Qed.

Lemma six_squares_of_negative_sign (L : float) :
  (L <? 0)%float = true -> sign_of (Prim2SF (L * L * 6)) = Some false.
Proof.
  intros H. pose proof (square_of_negative_sign L H) as S.
  rewrite mul_spec.
  change (Prim2SF 6) with (S754_finite false 6755399441055744 (-50)).
  destruct (Prim2SF (L * L)) as [s|s| |s m e]; simpl in S |- *;
    try discriminate; injection S as ->; try reflexivity.
  now apply binary_round_aux_sign.
Qed.

(** On a conforming host the cube carries the sign of the base, and is
    NaN for NaN alone. *)
Lemma conforming_sign (L : float) :
  conforming Math_pow ->
  sign_of (Prim2SF (Math_pow L 3)) = sign_of (Prim2SF L).
Proof.
  intros C. specialize (C L).
  destruct (Prim2SF L) as [s|s| |s m e]; simpl in C; try (now rewrite C).
  assert (P : 0 <= Zpos m ^ 3) by (apply Z.pow_nonneg; lia).
  destruct C as [-> | ->]; simpl;
    apply round_with_sign;
    auto using modest_toward_zero, modest_away_from_zero.
Qed.

Lemma sign_of_negative (L : float) :
  (L <? 0)%float = true -> sign_of (Prim2SF L) = Some true.
Proof.
  intros H. now destruct (negative_shape L H) as [E|(m & e & E)]; rewrite E.
Qed.

(** ** The store *)

Lemma get_object_lookup (this : loc) (o : Cube) (w : world) :
  heap w !! this = Some o -> get_object this w = Some (o, w).
Proof. intros H. unfold get_object. now rewrite H. Qed.

Lemma new_Cube_fresh (v : any) (w : world) :
  heap w !! fresh (dom (heap w)) = None.
Proof. apply not_elem_of_dom, is_fresh. Qed.

(** ** The accessors *)

(** C1: an instance whose length is the Number [L] has the surface area
    [6 * (L * L)], which is 24, 54, 96 and 150 at 2, 3, 4 and 5. *)
Theorem getSurfaceArea_six_times_square
    (w : world) (this : loc) (L : float) (f : option fn) :
  heap w !! this = Some (mkCube (Num L) f) ->
  getSurfaceArea this w = Some (Num (6 * (L * L)), w)
  /\ (L = 2%float -> getSurfaceArea this w = Some (Num 24, w))
  /\ (L = 3%float -> getSurfaceArea this w = Some (Num 54, w))
  /\ (L = 4%float -> getSurfaceArea this w = Some (Num 96, w))
  /\ (L = 5%float -> getSurfaceArea this w = Some (Num 150, w)).
Proof.
  intros H.
  assert (E : getSurfaceArea this w = Some (Num (6 * (L * L)), w)).
  { unfold getSurfaceArea, bind. rewrite (get_object_lookup _ _ _ H).
    simpl. unfold ret, js_mul; simpl.
    now rewrite (float_mul_comm (L * L) 6). }
  rewrite E. repeat split; intros ->; reflexivity.
Qed.

Lemma getSurfaceArea_six_times_square_witness :
  heap (world_of (Num 3)) !! 0%nat = Some (mkCube (Num 3) None)
  /\ getSurfaceArea 0%nat (world_of (Num 3))
     = Some (Num 54, world_of (Num 3)).
Proof.
  split; [reflexivity|].
  apply (getSurfaceArea_six_times_square (world_of (Num 3)) 0%nat 3%float None);
    reflexivity.
Defined.

(** C2: an instance whose length is the Number [L] has the volume
    [Math.pow(L, 3)].  On a conforming host that is the exact cube of [L]
    rounded to binary64 one way or the other, so the cube itself whenever
    the cube is a binary64 number: 8, 27, 64 and 125 at 2, 3, 4 and 5. *)
Theorem getVolume_cube
    (w : world) (this : loc) (L : float) (f : option fn) :
  conforming Math_pow ->
  heap w !! this = Some (mkCube (Num L) f) ->
  exists v,
    getVolume this w = Some (Num v, w)
    /\ v = Math_pow L 3
    /\ cube_of (Prim2SF L) (Prim2SF v)
    /\ (forall c, exact_cube (Prim2SF L) (Prim2SF c) -> v = c)
    /\ (L = 2%float -> v = 8%float)
    /\ (L = 3%float -> v = 27%float)
    /\ (L = 4%float -> v = 64%float)
    /\ (L = 5%float -> v = 125%float).
Proof.
  intros C H. exists (Math_pow L 3).
  split.
  { unfold getVolume, bind. now rewrite (get_object_lookup _ _ _ H). }
  split; [reflexivity|]. split; [apply C|].
  split; [intros c E; now apply conforming_exact|].
  repeat split; intros ->; apply (conforming_exact _ _ _ C); exact_cube_tac.
Qed.

(** C3: on Numbers [add] is the binary64 sum, whatever their sign and
    whether or not they are integers; it leaves the world as it is. *)
Theorem add_is_sum (w : world) (this : loc) (a b : float) :
  add this (Num a) (Num b) w = Some (Num (a + b), w)
  /\ add this (Num (-2)) (Num (-3)) w = Some (Num (-5), w)
  /\ add this (Num (-1.5)) (Num 0.25) w = Some (Num (-1.25), w).
Proof. repeat split. Qed.

(** ** Delegation *)

(** A call of the property [add] returns what [+] gives, after one record
    for each wrapper. *)
Lemma call_fn_sum (f : fn) (this : loc) (num1 num2 r : any) :
  any_add num1 num2 = Some r ->
  forall w,
    call_fn f this num1 num2 w
    = Some (r,
            mkWorld (heap w)
                    (calls w ++ replicate (spy_depth f) (mkCall this num1 num2))
                    (loop w)).
Proof.
  intros E. induction f as [|g IH]; intros w; simpl.
  - unfold add. rewrite E. unfold of_option, ret. rewrite app_nil_r.
    now destruct w.
  - unfold bind, record_call. rewrite IH. simpl.
    now rewrite <- app_assoc.
Qed.

Lemma call_fn_spec (f : fn) (this : loc) (num1 num2 : value) :
  forall w,
    call_fn f this num1 num2 w
    = Some (js_add num1 num2,
            mkWorld (heap w)
                    (calls w ++ replicate (spy_depth f) (mkCall this num1 num2))
                    (loop w)).
Proof. now apply call_fn_sum. Qed.

(** Where [+] gives nothing, neither does the call. *)
Lemma call_fn_None (f : fn) (this : loc) (num1 num2 : any) :
  any_add num1 num2 = None -> forall w, call_fn f this num1 num2 w = None.
Proof.
  intros E. induction f as [|g IH]; intros w; simpl.
  - unfold add. now rewrite E.
  - unfold bind, record_call. now rewrite IH.
Qed.

(** A call of the property [add] touches nothing but the record of calls. *)
Lemma call_fn_frame (f : fn) (this : loc) (num1 num2 r : any) (w w' : world) :
  call_fn f this num1 num2 w = Some (r, w') ->
  any_add num1 num2 = Some r /\ heap w' = heap w /\ loop w' = loop w.
Proof.
  destruct (any_add num1 num2) as [r'|] eqn:E.
  - rewrite (call_fn_sum _ _ _ _ _ E). now intros [= <- <-].
  - now rewrite (call_fn_None _ _ _ _ E).
Qed.

Lemma invoke_add_lookup (this : loc) (o : Cube) (num1 num2 : any) (w : world) :
  heap w !! this = Some o ->
  invoke_add this num1 num2 w = call_fn (lookup_add o) this num1 num2 w.
Proof.
  intros H. unfold invoke_add, bind. now rewrite (get_object_lookup _ _ _ H).
Qed.

Lemma invoke_add_frame
    (this : loc) (num1 num2 r : any) (w w' : world) :
  invoke_add this num1 num2 w = Some (r, w') ->
  heap w' = heap w /\ loop w' = loop w.
Proof.
  unfold invoke_add, bind, get_object.
  destruct (heap w !! this) as [o|]; [|discriminate].
  intros E. now destruct (call_fn_frame _ _ _ _ _ _ _ E) as (_ & ? & ?).
Qed.

Lemma sinon_spy_spec (this : loc) (o : Cube) (w : world) :
  heap w !! this = Some o ->
  lookup_add o = Cube_prototype_add ->
  sinon_spy this w
  = Some (tt,
          mkWorld (<[this := mkCube (length o)
                                     (Some (spy_on Cube_prototype_add))]>
                     (heap w))
                  (calls w) (loop w)).
Proof. intros H N. unfold sinon_spy. now rewrite H, N. Qed.

(** C4: [callAanotherMethod] returns what [add] returns, for any arguments
    and the sum on Numbers.  On an instance whose [add] is the prototype's it
    is the very computation of [add]; once [sinon.spy] has wrapped that
    [add], a call of [callAanotherMethod] records one call of [add] and no
    more, with the receiver and the two arguments it was given. *)
Theorem callAanotherMethod_delegates
    (w : world) (this : loc) (o : Cube) (num1 num2 : value) :
  heap w !! this = Some o ->
  fst <$> callAanotherMethod this num1 num2 w = fst <$> add this num1 num2 w
  /\ (forall a b, num1 = Num a -> num2 = Num b ->
        fst <$> callAanotherMethod this num1 num2 w
        = Some (Primitive (Num (a + b))))
  /\ (own_add o = None ->
        callAanotherMethod this num1 num2 w = add this num1 num2 w)
  /\ (own_add o = None ->
        exists w1, sinon_spy this w = Some (tt, w1)
        /\ calls w1 = calls w
        /\ callAanotherMethod this num1 num2 w1
           = Some (js_add num1 num2,
                   mkWorld (heap w1) (calls w1 ++ [mkCall this num1 num2])
                           (loop w1))).
Proof.
  intros H.
  assert (E : forall w' o', heap w' !! this = Some o' ->
            callAanotherMethod this num1 num2 w'
            = call_fn (lookup_add o') this num1 num2 w').
  { intros w' o' H'. now apply invoke_add_lookup. }
  repeat split.
  - rewrite (E _ _ H), call_fn_spec. reflexivity.
  - intros a b -> ->. rewrite (E _ _ H), call_fn_spec. reflexivity.
  - intros N. rewrite (E _ _ H). unfold lookup_add. now rewrite N.
  - intros N.
    assert (P : lookup_add o = Cube_prototype_add)
      by (unfold lookup_add; now rewrite N).
    eexists. split; [apply (sinon_spy_spec _ _ _ H P)|].
    split; [reflexivity|].
    erewrite E by (simpl; apply lookup_insert_eq).
    now rewrite call_fn_spec.
Qed.

Lemma callAanotherMethod_delegates_witness :
  heap (world_of (Num 2)) !! 0%nat = Some (mkCube (Num 2) None)
  /\ fst <$> callAanotherMethod 0%nat (Num 1) (Num 2) (world_of (Num 2))
     = Some (Primitive (Num 3)).
Proof.
  split; [reflexivity|].
  exact (proj1 (proj2 (callAanotherMethod_delegates
                         (world_of (Num 2)) 0%nat (mkCube (Num 2) None)
                         (Num 1) (Num 2) eq_refl))
               1%float 2%float eq_refl eq_refl).
Defined.

(** ** Construction *)

(** C7: [new Cube(L)] takes any value [L], a Number of either sign or no
    Number at all ([undefined], [null], a boolean, a BigInt, a String, a
    Symbol, an object), stores it as it is under a reference that was free,
    and [getSideLength] on the new instance gives [L] back and changes
    nothing. *)
Theorem construct_getSideLength_roundtrip (w : world) (L : any) :
  exists this w',
    new_Cube L w = Some (this, w')
    /\ heap w !! this = None
    /\ heap w' !! this = Some (mkCube L None)
    /\ getSideLength this w' = Some (L, w').
Proof.
  eexists _, _. split; [reflexivity|]. simpl.
  split; [apply (new_Cube_fresh L)|].
  split; [apply lookup_insert_eq|].
  unfold getSideLength, bind, get_object. simpl.
  now rewrite lookup_insert_eq.
Qed.

(** ** Negative lengths *)

(** C9, as stated, fails: at length -2 the surface area is 24, which is not
    below zero. *)
Lemma negative_length_surface_area_counterexample :
  (-2 <? 0)%float = true
  /\ heap (world_of (Num (-2))) !! 0%nat = Some (mkCube (Num (-2)) None)
  /\ getSurfaceArea 0%nat (world_of (Num (-2)))
     = Some (Num 24, world_of (Num (-2)))
  /\ (24 <? 0)%float = false
  /\ ~ (exists s, getSurfaceArea 0%nat (world_of (Num (-2)))
                  = Some (Num s, world_of (Num (-2)))
                  /\ (s <? 0)%float = true).
Proof.
  repeat split. intros (s & E & N).
  injection E as <-. discriminate N.
Qed.

(** C9, amended: an instance whose length is a Number below zero has a
    surface area that is not below zero, the sign being lost in the square,
    and on a conforming host a volume that carries the negative sign: below
    zero, or the negative zero when the cube underflows. *)
Theorem negative_length_signs
    (w : world) (this : loc) (L : float) (f : option fn) :
  conforming Math_pow ->
  (L <? 0)%float = true ->
  heap w !! this = Some (mkCube (Num L) f) ->
  exists s v,
    getSurfaceArea this w = Some (Num s, w)
    /\ (0 <=? s)%float = true
    /\ getVolume this w = Some (Num v, w)
    /\ ((v <? 0)%float = true \/ v = (-0)%float).
Proof.
  intros C N H. exists (L * L * 6)%float, (Math_pow L 3).
  unfold getSurfaceArea, getVolume, bind.
  rewrite (get_object_lookup _ _ _ H). simpl.
  repeat split.
  - apply nonnegative_of_sign, six_squares_of_negative_sign, N.
  - apply negative_of_sign. rewrite (conforming_sign L C).
    now apply sign_of_negative.
Qed.

(** ** The length after construction *)

Lemma testPromise_spec (this : loc) (w : world) :
  exists p l, testPromise this w = Some (p, mkWorld (heap w) (calls w) l).
Proof.
  unfold testPromise, bind, on_loop, new_Promise, then_, new_promise. simpl.
  eexists _, _. reflexivity.
Qed.

(** Each method leaves the store as it is. *)
Lemma perform_heap (op : operation) (this : loc) (w w' : world) (r : outcome) :
  perform op this w = Some (r, w') -> heap w' = heap w.
Proof.
  destruct op; simpl; unfold bind.
  - destruct (invoke_add this num1 num2 w) as [[v w1]|] eqn:E; [|discriminate].
    intros [= _ <-]. now apply (invoke_add_frame _ _ _ _ _ _ E).
  - destruct (callAanotherMethod this num1 num2 w) as [[v w1]|] eqn:E;
      [|discriminate].
    intros [= _ <-]. now apply (invoke_add_frame _ _ _ _ _ _ E).
  - unfold getSideLength, bind, get_object.
    destruct (heap w !! this) as [o|]; [|discriminate].
    intros [= _ <-]. reflexivity.
  - unfold getSurfaceArea, bind, get_object.
    destruct (heap w !! this) as [o|]; [|discriminate].
    destruct (any_mul (length o) (length o)) as [sq|]; [|discriminate]. simpl.
    destruct (any_mul sq (Num 6)); [|discriminate].
    intros [= _ <-]. reflexivity.
  - unfold getVolume, bind, get_object.
    destruct (heap w !! this) as [o|]; [|discriminate].
    destruct (any_ToNumber (length o)); [|discriminate].
    intros [= _ <-]. reflexivity.
  - destruct (testPromise_spec this w) as (p & l & ->).
    intros [= _ <-]. reflexivity.
Qed.

(** What an accessor does, in one equation. *)
Lemma accessor_run (op : operation) (this : loc) (o : Cube) (w : world) :
  accessor op = true -> heap w !! this = Some o ->
  perform op this w = (fun r => (r, w)) <$> accessor_result op (length o).
Proof.
  destruct op; try discriminate; intros _ H; simpl;
    unfold getSideLength, getSurfaceArea, getVolume, bind;
    rewrite (get_object_lookup _ _ _ H); simpl.
  - reflexivity.
  - destruct (any_mul (length o) (length o)) as [sq|]; [|reflexivity]. simpl.
    now destruct (any_mul sq (Num 6)).
  - now destruct (any_ToNumber (length o)).
Qed.

(** An accessor returns [r] exactly when [r] is its result at the length
    of the instance, and then it leaves the whole world as it is. *)
Lemma accessor_spec (op : operation) (this : loc) (o : Cube) (w : world) :
  accessor op = true -> heap w !! this = Some o ->
  forall r w',
    perform op this w = Some (r, w')
    <-> accessor_result op (length o) = Some r /\ w' = w.
Proof.
  intros A H r w'. rewrite (accessor_run _ _ _ _ A H).
  destruct (accessor_result op (length o)) as [r'|]; simpl.
  - split; [now intros [= <- <-]|now intros [[= <-] ->]].
  - split; [discriminate|now intros [? _]].
Qed.

(** On [undefined], [null], a boolean or a Number every accessor has a
    result. *)
Lemma accessor_result_value (op : operation) (v : value) :
  accessor op = true -> is_Some (accessor_result op v).
Proof. destruct op; try discriminate; intros _; simpl; eauto. Qed.

Lemma lengths_kept_refl (w : world) : lengths_kept w w.
Proof. intros this o H. eauto. Qed.

Lemma lengths_kept_trans (w1 w2 w3 : world) :
  lengths_kept w1 w2 -> lengths_kept w2 w3 -> lengths_kept w1 w3.
Proof.
  intros H12 H23 this o H.
  destruct (H12 _ _ H) as (o2 & H2 & E2).
  destruct (H23 _ _ H2) as (o3 & H3 & E3).
  exists o3. split; [exact H3|congruence].
Qed.

Lemma lengths_kept_same_heap (w w' : world) :
  heap w' = heap w -> lengths_kept w w'.
Proof. intros E this o H. rewrite E. eauto. Qed.

Lemma act_lengths_kept (a : action) (w w' : world) :
  act a w = Some (tt, w') -> lengths_kept w w'.
Proof.
  destruct a as [this op|v|obj|fuel ms]; simpl; unfold bind.
  - destruct (perform op this w) as [[r w1]|] eqn:E; [|discriminate].
    intros [= <-]. apply lengths_kept_same_heap, (perform_heap _ _ _ _ _ E).
  - simpl. intros [= <-] this o H. exists o. split; [|reflexivity].
    simpl. rewrite lookup_insert_ne; [exact H|].
    intros <-. rewrite (new_Cube_fresh v) in H. discriminate.
  - unfold sinon_spy. destruct (heap w !! obj) as [o1|] eqn:E; [|discriminate].
    destruct (lookup_add o1); [|discriminate].
    intros [= <-] this o H. simpl.
    destruct (decide (obj = this)) as [->|N].
    + rewrite lookup_insert_eq. eexists. split; [reflexivity|].
      simpl. congruence.
    + rewrite lookup_insert_ne by exact N. eauto.
  - unfold tick. destruct (advance fuel ms (loop w)); [|discriminate].
    intros [= <-]. now apply lengths_kept_same_heap.
Qed.

Lemma run_script_lengths_kept (script : list action) :
  forall w w', run_script script w = Some (tt, w') -> lengths_kept w w'.
Proof.
  induction script as [|a rest IH]; intros w w'; simpl.
  - intros [= <-]. apply lengths_kept_refl.
  - unfold bind. destruct (act a w) as [[[] w1]|] eqn:E; [|discriminate].
    intros H. eapply lengths_kept_trans; [apply (act_lengths_kept _ _ _ E)|].
    now apply IH.
Qed.

(** C8: no method changes the store, and whatever a client does in between
    (calls of any method on any instance, new instances, a spy on [add], time
    passing) each instance keeps its length.  An accessor returns [r] exactly
    when [r] is its result at the length of the instance, a function of the
    length alone, and then it has changed nothing; it has a result whenever
    the length is [undefined], [null], a boolean or a Number.  So it returns
    the same result each time it is called on an instance, and the accessors
    of two instances made one after the other answer each for its own
    length. *)
Theorem length_is_never_mutated :
  (forall op this w r w',
      perform op this w = Some (r, w') -> heap w' = heap w)
  /\ (forall script w w', run_script script w = Some (tt, w') ->
        lengths_kept w w')
  /\ (forall op this o w, accessor op = true -> heap w !! this = Some o ->
        (forall r w', perform op this w = Some (r, w')
                      <-> accessor_result op (length o) = Some r /\ w' = w)
        /\ (forall v : value, length o = v ->
              exists r, accessor_result op v = Some r
                        /\ perform op this w = Some (r, w)))
  /\ (forall op this o w script w',
        accessor op = true -> heap w !! this = Some o ->
        run_script script w = Some (tt, w') ->
        fst <$> perform op this w' = fst <$> perform op this w)
  /\ (forall w L1 L2 c1 w1 c2 w2 op,
        accessor op = true ->
        new_Cube L1 w = Some (c1, w1) -> new_Cube L2 w1 = Some (c2, w2) ->
        c1 <> c2
        /\ (forall r w', perform op c1 w2 = Some (r, w')
                         <-> accessor_result op L1 = Some r /\ w' = w2)
        /\ (forall r w', perform op c2 w2 = Some (r, w')
                         <-> accessor_result op L2 = Some r /\ w' = w2)).
Proof.
  split; [intros op this w r w'; apply perform_heap|].
  split; [exact (fun s w w' => run_script_lengths_kept s w w')|].
  split.
  { intros op this o w A H. split; [now apply accessor_spec|].
    intros v E. destruct (accessor_result_value op v A) as [r R].
    exists r. split; [exact R|].
    apply (accessor_spec _ _ _ _ A H). now rewrite E. }
  split.
  - intros op this o w script w' A H R.
    destruct (run_script_lengths_kept _ _ _ R _ _ H) as (o' & H' & E).
    rewrite (accessor_run _ _ _ _ A H), (accessor_run _ _ _ _ A H').
    rewrite E. now destruct (accessor_result op (length o)).
  - intros w L1 L2 c1 w1 c2 w2 op A [= <- <-] [= <- <-]. simpl.
    set (h1 := <[fresh (dom (heap w)) := mkCube L1 None]> (heap w)).
    assert (H1 : h1 !! fresh (dom (heap w)) = Some (mkCube L1 None))
      by apply lookup_insert_eq.
    assert (N : fresh (dom (heap w)) <> fresh (dom h1)).
    { intros E. pose proof (is_fresh (dom h1)) as F. rewrite <- E in F.
      apply F, elem_of_dom. eauto. }
    split; [exact N|]. split.
    + apply (accessor_spec op _ (mkCube L1 None)); [exact A|].
      simpl. rewrite lookup_insert_ne by auto. exact H1.
    + apply (accessor_spec op _ (mkCube L2 None)); [exact A|].
      simpl. apply lookup_insert_eq.
Qed.

(** ** The event loop *)

(** *** Termination: the fuel of [budget] is enough *)

Lemma pending_reactions_app (ps qs : list promise) :
  pending_reactions (ps ++ qs)
  = (pending_reactions ps + pending_reactions qs)%nat.
Proof. unfold pending_reactions. now rewrite map_app, list_sum_app. Qed.

Lemma pending_reactions_insert
    (ps : list promise) (p : pid) (old new : promise) :
  ps !! p = Some old ->
  (pending_reactions (<[p := new]> ps) + List.length (reactions old)
   = pending_reactions ps + List.length (reactions new))%nat.
Proof.
  intros H.
  rewrite (insert_take_drop ps p new) by (eapply lookup_lt_Some; eauto).
  transitivity (pending_reactions (take p ps ++ old :: drop (S p) ps)
                + List.length (reactions new))%nat;
    [|now rewrite take_drop_middle].
  rewrite !pending_reactions_app. unfold pending_reactions; simpl. lia.
Qed.

Lemma settle_work (p : pid) (s : settlement) (l : event_loop) :
  work (settle p s l) = work l.
Proof.
  unfold settle.
  destruct (promises l !! p) as [[[] rs]|] eqn:E; try reflexivity.
  unfold work; simpl.
  pose proof (pending_reactions_insert _ _ _ (mkPromise (settled_state s) []) E)
    as H. simpl in H.
  rewrite length_app, length_map. lia.
Qed.

Lemma settle_timers (p : pid) (s : settlement) (l : event_loop) :
  timers (settle p s l) = timers l /\ now (settle p s l) = now l.
Proof.
  unfold settle. now destruct (promises l !! p) as [[[] rs]|].
Qed.

Lemma call_closure_work (c : closure) (arg : value) (l : event_loop) :
  work (snd (call_closure c arg l)) = work l
  /\ timers (snd (call_closure c arg l)) = timers l
  /\ now (snd (call_closure c arg l)) = now l.
Proof.
  destruct c; simpl; [|auto].
  split; [apply settle_work|apply settle_timers].
Qed.

Lemma run_job_work (j : job) (l : event_loop) :
  work (run_job j l) = work l
  /\ timers (run_job j l) = timers l
  /\ now (run_job j l) = now l.
Proof.
  assert (S : forall d s l0, work (settle d s l0) = work l0
                             /\ timers (settle d s l0) = timers l0
                             /\ now (settle d s l0) = now l0).
  { intros d s l0. split; [apply settle_work|apply settle_timers]. }
  unfold run_job. destruct (job_argument j) as [v|e]; [|apply S].
  pose proof (call_closure_work (on_fulfilled (job_reaction j)) v l)
    as (W & Tm & N).
  destruct (call_closure _ v l) as [[r|e] l1]; simpl in *;
    rewrite <- W, <- Tm, <- N; apply S.
Qed.

Lemma drain_terminates (fuel : nat) :
  forall l, (work l <= fuel)%nat ->
    exists l', drain fuel l = Some l'
               /\ jobs l' = []
               /\ (work l' <= work l)%nat
               /\ timers l' = timers l
               /\ now l' = now l.
Proof.
  induction fuel as [|f IH]; intros l H.
  - destruct l as [n ts ps [|j js]]; unfold work in H; simpl in H;
      [|lia]. exists (mkLoop n ts ps []). simpl. auto.
  - destruct l as [n ts ps [|j js]].
    + exists (mkLoop n ts ps []). simpl. auto.
    + simpl.
      pose proof (run_job_work j (mkLoop n ts ps js)) as (W & Tm & N).
      destruct (IH (run_job j (mkLoop n ts ps js)))
        as (l' & D & J & W' & T' & N').
      { rewrite W. unfold work in *. simpl in *. lia. }
      exists l'. rewrite D. simpl in Tm, N.
      repeat split; try congruence.
      rewrite W in W'. unfold work in *. simpl in *. lia.
Qed.

Lemma next_timer_None (ts : list timer) :
  next_timer ts = None -> ts = [].
Proof.
  destruct ts as [|t ts]; [reflexivity|]. simpl.
  destruct (next_timer ts) as [[t' rest']|];
    [destruct (due t' <? due t)|]; discriminate.
Qed.

Lemma next_timer_perm (ts : list timer) :
  forall t rest, next_timer ts = Some (t, rest) -> ts ≡ₚ t :: rest.
Proof.
  induction ts as [|t0 ts IH]; intros t rest; simpl; [discriminate|].
  destruct (next_timer ts) as [[t' rest']|] eqn:E.
  - destruct (due t' <? due t0); intros [= <- <-]; [|reflexivity].
    rewrite (IH _ _ eq_refl). apply Permutation_swap.
  - intros [= <- <-]. now rewrite (next_timer_None _ E).
Qed.

Lemma next_timer_earliest (ts : list timer) :
  forall t rest, next_timer ts = Some (t, rest) ->
    Forall (fun t' => due t <= due t') ts.
Proof.
  induction ts as [|t0 ts IH]; intros t rest; simpl; [discriminate|].
  destruct (next_timer ts) as [[t' rest']|] eqn:E.
  - specialize (IH _ _ eq_refl).
    destruct (due t' <? due t0) eqn:C; intros [= <- <-].
    + constructor; [lia|exact IH].
    + constructor; [lia|].
      eapply Forall_impl; [exact IH|]. simpl. intros; lia.
  - intros [= <- <-]. apply next_timer_None in E. subst ts.
    constructor; [lia|constructor].
Qed.

Lemma run_timers_terminates (fuel : nat) :
  forall target l,
    (List.length (timers l) + work l < fuel)%nat ->
    exists l', run_timers fuel target l = Some l'.
Proof.
  induction fuel as [|f IH]; intros target l H; [lia|]. simpl.
  destruct (next_timer (timers l)) as [[t rest]|] eqn:E; [|eauto].
  destruct (due t <=? target); [|eauto].
  apply next_timer_perm in E. apply Permutation_length in E. simpl in E.
  set (l1 := mkLoop (Z.max (now l) (due t)) rest (promises l) (jobs l)).
  destruct (call_closure_work (callback t) Undefined l1) as (W & Tm & _).
  destruct (drain_terminates f (snd (call_closure (callback t) Undefined l1)))
    as (l2 & D & _ & W2 & T2 & _).
  { rewrite W. unfold work in *. simpl. lia. }
  rewrite D. apply IH. rewrite T2, Tm. unfold work in *; simpl in *. lia.
Qed.

Lemma advance_terminates (fuel : nat) (ms : Z) (l : event_loop) :
  (budget l <= fuel)%nat -> exists l', advance fuel ms l = Some l'.
Proof.
  intros H. unfold budget in H. unfold advance.
  destruct (drain_terminates fuel l) as (l1 & D & _ & W1 & T1 & _).
  { unfold work, pending_reactions. lia. }
  rewrite D. apply run_timers_terminates.
  rewrite T1. unfold work, pending_reactions in *. lia.
Qed.

(** *** The promise of [testPromise] among the others *)

Lemma settle_spec (q : pid) (s : settlement) (l : event_loop) :
  settle q s l = l
  \/ exists rs,
       promises l !! q = Some (mkPromise Pending rs)
       /\ settle q s l
          = mkLoop (now l) (timers l)
                   (<[q := mkPromise (settled_state s) []]> (promises l))
                   (jobs l ++ map (fun r => mkJob r s) rs).
Proof.
  unfold settle. destruct (promises l !! q) as [[[] rs]|]; eauto.
Qed.

(** One step of the loop at a time: what it does to the phase the call is
    in. *)
Section Phases.
Variables p1 p2 : pid.
Variable T : Z.
Hypothesis distinct : p1 <> p2.

(** **** Settling *)

Lemma settle_done (q : pid) (s : settlement) (l : event_loop) :
  done p2 l -> done p2 (settle q s l).
Proof.
  intros [rs H]. destruct (settle_spec q s l) as [->|(qs & E & ->)];
    [now exists rs|].
  exists rs. simpl. rewrite list_lookup_insert_ne; [exact H|].
  intros ->. congruence.
Qed.

Lemma settle_armed (q : pid) (s : settlement) (l : event_loop) :
  q <> p1 -> q <> p2 -> armed p1 p2 T l -> armed p1 p2 T (settle q s l).
Proof.
  intros N1 N2 A. destruct (settle_spec q s l) as [->|(qs & E & ->)];
    [exact A|].
  destruct A as [A1 A2 A3 A5 A6]. split; simpl; auto.
  - now rewrite list_lookup_insert_ne.
  - now rewrite list_lookup_insert_ne.
  - intros q' pr N' H. destruct (decide (q = q')) as [<-|N].
    + rewrite list_lookup_insert_eq in H by (eapply lookup_lt_Some; eauto).
      injection H as <-. constructor.
    + rewrite list_lookup_insert_ne in H by exact N. eauto.
  - apply Forall_app. split; [exact A6|].
    apply Forall_map. simpl. exact (A5 q _ N1 E).
Qed.

Lemma settle_queued (q : pid) (s : settlement) (l : event_loop) :
  q <> p2 -> queued p2 l -> queued p2 (settle q s l).
Proof.
  intros N2 Q. destruct (settle_spec q s l) as [->|(qs & E & ->)];
    [exact Q|].
  destruct Q as [Q2 Q3 Q5 Q6 Q7]. split; simpl; auto.
  - now rewrite list_lookup_insert_ne.
  - intros q' pr H. destruct (decide (q = q')) as [<-|N].
    + rewrite list_lookup_insert_eq in H by (eapply lookup_lt_Some; eauto).
      injection H as <-. constructor.
    + rewrite list_lookup_insert_ne in H by exact N. eauto.
  - apply Forall_app. split; [exact Q6|].
    apply Forall_map. simpl.
    eapply Forall_impl; [exact (Q5 q _ E)|]. simpl. auto.
  - apply Exists_app. now left.
Qed.

(** The timer's callback takes the loop from [armed] to [queued]. *)
Lemma resolve_armed (l : event_loop) :
  armed p1 p2 T l -> queued p2 (settle p1 (fulfilled_with (Num 3)) l).
Proof.
  intros [A1 A2 A3 A5 A6]. unfold settle. rewrite A1. split; simpl.
  - now rewrite list_lookup_insert_ne.
  - eapply Forall_impl; [exact A3|]. simpl.
    intros t [[E _]|[_ S]]; [|exact S].
    unfold spares. rewrite E. intros [= ?]. auto.
  - intros q pr H. destruct (decide (p1 = q)) as [<-|N].
    + rewrite list_lookup_insert_eq in H by (eapply lookup_lt_Some; eauto).
      injection H as <-. constructor.
    + rewrite list_lookup_insert_ne in H by exact N.
      eapply Forall_impl; [exact (A5 q pr (not_eq_sym N) H)|].
      now intros r [_ S].
  - apply Forall_app. split.
    + eapply Forall_impl; [exact A6|]. simpl. intros j [_ S]. now right.
    + repeat constructor.
  - apply Exists_app. right. now constructor.
Qed.

(** The doubling job takes the loop from [queued] to [done]. *)
Lemma run_doubling_job (l : event_loop) :
  promises l !! p2 = Some (mkPromise Pending []) ->
  done p2 (run_job (doubling_job p2) l).
Proof.
  intros Q2. unfold run_job, settle; simpl. rewrite Q2.
  eexists. simpl. apply list_lookup_insert_eq.
  eapply lookup_lt_Some; eauto.
Qed.

(** **** Calls and jobs *)

Lemma call_closure_done (c : closure) (arg : value) (l : event_loop) :
  done p2 l -> done p2 (snd (call_closure c arg l)).
Proof. destruct c; simpl; auto using settle_done. Qed.

Lemma call_closure_armed (c : closure) (arg : value) (l : event_loop) :
  spares p1 c -> spares p2 c -> armed p1 p2 T l ->
  armed p1 p2 T (snd (call_closure c arg l)).
Proof.
  destruct c as [q|]; simpl; [|auto]. unfold spares. intros S1 S2.
  apply settle_armed; congruence.
Qed.

Lemma call_closure_queued (c : closure) (arg : value) (l : event_loop) :
  spares p2 c -> queued p2 l -> queued p2 (snd (call_closure c arg l)).
Proof.
  destruct c as [q|]; simpl; [|auto]. unfold spares. intros S2.
  apply settle_queued; congruence.
Qed.

Lemma run_job_done (j : job) (l : event_loop) :
  done p2 l -> done p2 (run_job j l).
Proof.
  intros D. unfold run_job. destruct (job_argument j) as [v|e];
    [|now apply settle_done].
  pose proof (call_closure_done (on_fulfilled (job_reaction j)) v l D) as D1.
  destruct (call_closure _ v l) as [[r|e] l1]; now apply settle_done.
Qed.

Lemma run_job_armed (j : job) (l : event_loop) :
  foreign p1 p2 (job_reaction j) -> armed p1 p2 T l ->
  armed p1 p2 T (run_job j l).
Proof.
  intros [[C1 D1] [C2 D2]] A. unfold run_job.
  destruct (job_argument j) as [v|e]; [|now apply settle_armed].
  pose proof (call_closure_armed _ v l C1 C2 A) as A1.
  destruct (call_closure _ v l) as [[r|e] l1]; now apply settle_armed.
Qed.

Lemma run_job_queued (j : job) (l : event_loop) :
  reaction_spares p2 (job_reaction j) -> queued p2 l -> queued p2 (run_job j l).
Proof.
  intros [C2 D2] Q. unfold run_job.
  destruct (job_argument j) as [v|e]; [|now apply settle_queued].
  pose proof (call_closure_queued _ v l C2 Q) as Q1.
  destruct (call_closure _ v l) as [[r|e] l1]; now apply settle_queued.
Qed.

(** **** The microtask checkpoint *)

Lemma drain_done (fuel : nat) :
  forall l l', done p2 l -> drain fuel l = Some l' -> done p2 l'.
Proof.
  induction fuel as [|f IH]; intros [n ts ps [|j js]] l' D; simpl;
    try discriminate; try (now intros [= <-]).
  apply IH. now apply run_job_done.
Qed.

Lemma drain_armed (fuel : nat) :
  forall l l', armed p1 p2 T l -> drain fuel l = Some l' -> armed p1 p2 T l'.
Proof.
  induction fuel as [|f IH]; intros [n ts ps [|j js]] l' A; simpl;
    try discriminate; try (now intros [= <-]).
  apply IH. destruct A as [A1 A2 A3 A5 A6]. simpl in *.
  apply run_job_armed; [now inversion A6|].
  split; simpl; auto. now inversion A6.
Qed.

Lemma drain_queued (fuel : nat) :
  forall l l', queued p2 l -> drain fuel l = Some l' -> done p2 l'.
Proof.
  induction fuel as [|f IH]; intros [n ts ps [|j js]] l' Q; simpl;
    try discriminate.
  - destruct Q as [_ _ _ _ Q7]. simpl in Q7. inversion Q7.
  - destruct Q as [_ _ _ _ Q7]. simpl in Q7. inversion Q7.
  - destruct Q as [Q2 Q3 Q5 Q6 Q7]. simpl in *.
    inversion Q6 as [|j0 js0 Hj Hjs]; subst.
    destruct Hj as [->|S].
    + apply drain_done. now apply run_doubling_job.
    + inversion Q7 as [j0 js0 E|j0 js0 E]; subst.
      * apply drain_done. now apply run_doubling_job.
      * apply IH. apply run_job_queued; [exact S|]. now split.
Qed.

(** **** Timers *)

Lemma run_timers_done (fuel : nat) :
  forall target l l',
    done p2 l -> run_timers fuel target l = Some l' -> done p2 l'.
Proof.
  induction fuel as [|f IH]; intros target l l' D; simpl; [discriminate|].
  destruct (next_timer (timers l)) as [[t rest]|];
    [destruct (due t <=? target)|]; try (now intros [= <-]).
  set (l1 := mkLoop (Z.max (now l) (due t)) rest (promises l) (jobs l)).
  destruct (drain f (snd (call_closure (callback t) Undefined l1)))
    as [l2|] eqn:E; [|discriminate].
  apply IH. eapply drain_done; [|exact E]. now apply call_closure_done.
Qed.

Lemma drain_timers (fuel : nat) :
  forall l l', drain fuel l = Some l' -> timers l' = timers l.
Proof.
  induction fuel as [|f IH]; intros [n ts ps [|j js]] l'; simpl;
    try discriminate; try (now intros [= <-]).
  intros D. rewrite (IH _ _ D).
  now destruct (run_job_work j (mkLoop n ts ps js)) as (_ & -> & _).
Qed.

(** From [armed] with the timer set, the returned promise is fulfilled
    with 6 once the clock has reached [T], and nothing has changed for it
    before. *)
Lemma run_timers_armed (fuel : nat) :
  forall target l l',
    armed p1 p2 T l -> timer_set p1 T l -> run_timers fuel target l = Some l' ->
    (T <= target -> done p2 l')
    /\ (target < T -> armed p1 p2 T l' /\ timer_set p1 T l').
Proof.
  induction fuel as [|f IH]; intros target l l' A S; simpl; [discriminate|].
  destruct (next_timer (timers l)) as [[t rest]|] eqn:E.
  - pose proof (next_timer_perm _ _ _ E) as P.
    pose proof (next_timer_earliest _ _ _ E) as Mn.
    destruct (due t <=? target) eqn:C.
    + set (l1 := mkLoop (Z.max (now l) (due t)) rest (promises l) (jobs l)).
      destruct (drain f (snd (call_closure (callback t) Undefined l1)))
        as [l2|] eqn:D; [|discriminate].
      intros R. destruct A as [A1 A2 A3 A5 A6].
      unfold timer_set in S. rewrite P in A3, S.
      inversion A3 as [|t0 ts0 Ht Hrest]; subst.
      assert (A' : armed p1 p2 T l1) by (split; auto).
      destruct Ht as [[Ec Ed]|[S1 S2]].
      * (* the timer of [testPromise] fires *)
        assert (Dn : done p2 l').
        { eapply run_timers_done; [|exact R].
          eapply drain_queued; [|exact D].
          rewrite Ec. simpl. now apply resolve_armed. }
        split; [auto|]. lia.
      * (* another timer fires *)
        apply (IH target l2); [| |exact R].
        -- eapply drain_armed; [|exact D]. now apply call_closure_armed.
        -- unfold timer_set. rewrite (drain_timers _ _ _ D).
           destruct (call_closure_work (callback t) Undefined l1)
             as (_ & -> & _). simpl.
           inversion S as [t0 ts0 [Ec _]|t0 ts0 Ex]; subst; [|exact Ex].
           now elim S1.
    + intros [= <-]. split.
      * intros Le. unfold timer_set in S.
        apply Exists_exists in S. destruct S as (t' & In' & _ & Ed).
        rewrite Forall_forall in Mn. specialize (Mn t' In'). lia.
      * intros _. destruct A as [A1 A2 A3 A5 A6]. split; [split|]; auto.
  - apply next_timer_None in E. unfold timer_set in S. rewrite E in S.
    inversion S.
Qed.

End Phases.

(** *** What [testPromise] leaves in the loop *)

Lemma testPromise_unfold (this : loc) (w : world) :
  testPromise this w
  = Some (S (List.length (promises (loop w))),
          mkWorld (heap w) (calls w) (after_testPromise (loop w))).
Proof.
  unfold testPromise, bind, on_loop, new_Promise, then_, new_promise. simpl.
  rewrite length_app. simpl. rewrite Nat.add_1_r.
  rewrite lookup_app_l by (rewrite length_app; simpl; lia).
  rewrite list_lookup_middle by reflexivity.
  unfold after_testPromise. simpl. do 3 f_equal.
  rewrite insert_app_l by (rewrite length_app; simpl; lia).
  rewrite (insert_app_r_alt _ _ (List.length (promises (loop w)))) by lia.
  rewrite Nat.sub_diag. simpl. now rewrite <- app_assoc.
Qed.

Lemma closure_ok_spares (n p : nat) (c : closure) :
  (n <= p)%nat -> closure_ok n c -> spares p c.
Proof. intros Le Ok ->. simpl in Ok. lia. Qed.

Lemma reaction_ok_foreign (n p1 p2 : nat) (r : reaction) :
  (n <= p1)%nat -> (n <= p2)%nat -> reaction_ok n r -> foreign p1 p2 r.
Proof.
  intros L1 L2 [C D].
  repeat split; try (now apply (closure_ok_spares n)); lia.
Qed.

(** In a well-formed loop, [testPromise] arms its two promises. *)
Lemma testPromise_arms (l : event_loop) :
  well_formed l ->
  armed (List.length (promises l)) (S (List.length (promises l)))
        (now l + 1000) (after_testPromise l)
  /\ timer_set (List.length (promises l)) (now l + 1000) (after_testPromise l).
Proof.
  intros (Wt & Wp & Wj). set (n := List.length (promises l)) in *.
  split; [split|]; unfold after_testPromise; simpl; fold n.
  - now apply list_lookup_middle.
  - rewrite lookup_app_r by (fold n; lia). fold n.
    now replace (S n - n)%nat with 1%nat by lia.
  - apply Forall_app. split.
    + eapply Forall_impl; [exact Wt|]. simpl. intros t Ok. right.
      split; apply (closure_ok_spares n); auto.
    + constructor; [|constructor]. now left.
  - intros q pr N H. destruct (decide (q < n)%nat) as [Lt|Ge].
    + rewrite lookup_app_l in H by exact Lt.
      rewrite Forall_forall in Wp.
      eapply Forall_impl;
        [apply Wp; eapply list_elem_of_lookup_2, H|].
      intros r. apply reaction_ok_foreign; lia.
    + rewrite lookup_app_r in H by (fold n; lia). fold n in H.
      destruct (q - n)%nat as [|[|k]] eqn:E; simpl in H; try discriminate.
      * lia.
      * injection H as <-. constructor.
  - eapply Forall_impl; [exact Wj|]. simpl. intros j.
    apply reaction_ok_foreign; lia.
  - unfold timer_set. simpl. apply Exists_app. right. now constructor.
Qed.

(** A later call of [testPromise] disturbs nothing. *)
Section Another_call.
Variables p1 p2 : pid.
Variable T : Z.

Lemma another_call_done (l : event_loop) :
  done p2 l -> done p2 (after_testPromise l).
Proof.
  intros [rs H]. exists rs. simpl.
  rewrite lookup_app_l by (eapply lookup_lt_Some; eauto). exact H.
Qed.

Lemma another_call_timer_set (l : event_loop) :
  timer_set p1 T l -> timer_set p1 T (after_testPromise l).
Proof. intros S. unfold timer_set. simpl. apply Exists_app. now left. Qed.

Lemma another_call_armed (l : event_loop) :
  armed p1 p2 T l -> armed p1 p2 T (after_testPromise l).
Proof.
  intros [A1 A2 A3 A5 A6]. set (n := List.length (promises l)).
  assert (L1 : (p1 < n)%nat) by (eapply lookup_lt_Some; eauto).
  assert (L2 : (p2 < n)%nat) by (eapply lookup_lt_Some; eauto).
  split; simpl; fold n.
  - now rewrite lookup_app_l.
  - now rewrite lookup_app_l.
  - apply Forall_app. split; [exact A3|]. constructor; [|constructor].
    right. simpl. split; intros [= E]; lia.
  - intros q pr N H. destruct (decide (q < n)%nat) as [Lt|Ge].
    + rewrite lookup_app_l in H by exact Lt. eauto.
    + rewrite lookup_app_r in H by (fold n; lia). fold n in H.
      destruct (q - n)%nat as [|[|k]] eqn:E; simpl in H; try discriminate;
        injection H as <-; repeat constructor; simpl; try discriminate; lia.
  - exact A6.
Qed.
End Another_call.

(** *** Scripts *)

Lemma drain_now (fuel : nat) :
  forall l l', drain fuel l = Some l' -> now l' = now l.
Proof.
  induction fuel as [|f IH]; intros [n ts ps [|j js]] l'; simpl;
    try discriminate; try (now intros [= <-]).
  intros D. rewrite (IH _ _ D).
  now destruct (run_job_work j (mkLoop n ts ps js)) as (_ & _ & ->).
Qed.

Lemma run_timers_now (fuel : nat) :
  forall target l l', run_timers fuel target l = Some l' -> now l' = target.
Proof.
  induction fuel as [|f IH]; intros target l l'; simpl; [discriminate|].
  destruct (next_timer (timers l)) as [[t rest]|];
    [destruct (due t <=? target)|]; try (now intros [= <-]).
  destruct (drain f _) as [l2|]; [apply IH|discriminate].
Qed.

Lemma advance_now (fuel : nat) (ms : Z) (l l' : event_loop) :
  advance fuel ms l = Some l' -> now l' = now l + ms.
Proof.
  unfold advance. destruct (drain fuel l) as [l1|]; [|discriminate].
  apply run_timers_now.
Qed.

(** What an action does to the loop. *)
Lemma act_loop (a : action) (w w' : world) :
  act a w = Some (tt, w') ->
  loop w' = loop w
  \/ loop w' = after_testPromise (loop w)
  \/ exists fuel ms, a = do_tick fuel ms
                     /\ advance fuel ms (loop w) = Some (loop w').
Proof.
  destruct a as [this op|v|obj|fuel ms]; simpl; unfold bind.
  - destruct (perform op this w) as [[r w1]|] eqn:E; [|discriminate].
    intros [= <-]. revert E. destruct op; unfold perform, bind.
    6: { rewrite testPromise_unfold. intros [= _ <-]. auto. }
    1, 2: destruct (_ this num1 num2 w) as [[v w2]|] eqn:E; [|discriminate];
          intros [= _ <-]; left; now apply (invoke_add_frame _ _ _ _ _ _ E).
    all: unfold getSideLength, getSurfaceArea, getVolume, bind, get_object;
         (destruct (heap w !! this) as [o|]; [|discriminate]); simpl.
    + intros [= _ <-]. auto.
    + destruct (any_mul (length o) (length o)) as [sq|]; [|discriminate].
      simpl. destruct (any_mul sq (Num 6)); [|discriminate].
      intros [= _ <-]. auto.
    + destruct (any_ToNumber (length o)); [|discriminate].
      intros [= _ <-]. auto.
  - intros [= <-]. auto.
  - unfold sinon_spy. destruct (heap w !! obj) as [o|]; [|discriminate].
    destruct (lookup_add o); [|discriminate].
    intros [= <-]. auto.
  - unfold tick. destruct (advance fuel ms (loop w)) as [l|] eqn:E;
      [|discriminate].
    intros [= <-]. right. right. eauto.
Qed.

(** The promise [p2] of one call, with its first promise [p1] and its due
    time [T], followed through whatever the client does. *)
Section Tracking.
Variables p1 p2 : pid.
Variable T : Z.
Hypothesis distinct : p1 <> p2.

Lemma tracked_alive (l : event_loop) : tracked p1 p2 T l -> alive p1 p2 T l.
Proof. intros [(_ & A & S)|(_ & D)]; [left|right]; auto. Qed.

Lemma tracked_state (l : event_loop) :
  tracked p1 p2 T l ->
  (now l < T -> promise_state_of p2 l = Some Pending)
  /\ (T <= now l -> promise_state_of p2 l = Some (Fulfilled (Num 6))).
Proof.
  unfold promise_state_of.
  intros [(Lt & [_ A2 _ _ _] & _)|(Ge & rs & D)]; split; intros; try lia.
  - now rewrite A2.
  - now rewrite D.
Qed.

Lemma alive_state (l : event_loop) :
  alive p1 p2 T l ->
  promise_state_of p2 l = Some Pending
  \/ promise_state_of p2 l = Some (Fulfilled (Num 6)).
Proof.
  unfold promise_state_of. intros [([_ A2 _ _ _] & _)|(rs & D)].
  - left. now rewrite A2.
  - right. now rewrite D.
Qed.

(** Time passing from [armed]: the promise is fulfilled with 6 if the clock
    reaches [T], and nothing has changed for it otherwise. *)
Lemma advance_armed (fuel : nat) (ms : Z) (l l' : event_loop) :
  armed p1 p2 T l -> timer_set p1 T l -> advance fuel ms l = Some l' ->
  (T <= now l + ms -> done p2 l')
  /\ (now l + ms < T -> armed p1 p2 T l' /\ timer_set p1 T l').
Proof.
  unfold advance. destruct (drain fuel l) as [l1|] eqn:D; [|discriminate].
  intros A S R.
  apply (run_timers_armed p1 p2 T distinct fuel (now l + ms) l1 l'); auto.
  - eapply drain_armed; eauto.
  - unfold timer_set. now rewrite (drain_timers _ _ _ D).
Qed.

Lemma advance_done (fuel : nat) (ms : Z) (l l' : event_loop) :
  done p2 l -> advance fuel ms l = Some l' -> done p2 l'.
Proof.
  unfold advance. destruct (drain fuel l) as [l1|] eqn:D; [|discriminate].
  intros Dn R. eapply run_timers_done; [|exact R]. eapply drain_done; eauto.
Qed.

Lemma advance_alive (fuel : nat) (ms : Z) (l l' : event_loop) :
  alive p1 p2 T l -> advance fuel ms l = Some l' -> alive p1 p2 T l'.
Proof.
  intros [(A & S)|Dn] Adv.
  - destruct (advance_armed _ _ _ _ A S Adv) as (Ge & Lt).
    destruct (Z_lt_le_dec (now l + ms) T); [left|right]; auto.
  - right. eapply advance_done; eauto.
Qed.

Lemma advance_tracked (fuel : nat) (ms : Z) (l l' : event_loop) :
  0 <= ms -> tracked p1 p2 T l -> advance fuel ms l = Some l' ->
  tracked p1 p2 T l'.
Proof.
  intros NN Tr Adv. pose proof (advance_now _ _ _ _ Adv) as N.
  unfold tracked. rewrite N.
  destruct Tr as [(Lt & A & S)|(Ge & Dn)].
  - destruct (advance_armed _ _ _ _ A S Adv) as (Ge' & Lt').
    destruct (Z_lt_le_dec (now l + ms) T); [left|right]; auto.
  - right. split; [lia|]. eapply advance_done; eauto.
Qed.

Lemma another_call_tracked (l : event_loop) :
  tracked p1 p2 T l -> tracked p1 p2 T (after_testPromise l).
Proof.
  intros [(Lt & A & S)|(Ge & D)]; [left|right]; simpl;
    auto using another_call_armed, another_call_timer_set, another_call_done.
Qed.

Lemma another_call_alive (l : event_loop) :
  alive p1 p2 T l -> alive p1 p2 T (after_testPromise l).
Proof.
  intros [(A & S)|D]; [left|right];
    auto using another_call_armed, another_call_timer_set, another_call_done.
Qed.

Lemma run_script_tracked (script : list action) :
  forall w w',
    Forall forward script -> tracked p1 p2 T (loop w) ->
    run_script script w = Some (tt, w') -> tracked p1 p2 T (loop w').
Proof.
  induction script as [|a rest IH]; intros w w' F Tr; simpl.
  - now intros [= <-].
  - unfold bind. destruct (act a w) as [[[] w1]|] eqn:E; [|discriminate].
    inversion F as [|a0 rest0 Fa Frest]; subst.
    apply IH; [exact Frest|].
    destruct (act_loop _ _ _ E) as [->|[->|(fuel & ms & -> & Adv)]].
    + exact Tr.
    + now apply another_call_tracked.
    + eapply advance_tracked; eauto.
Qed.

Lemma run_script_alive (script : list action) :
  forall w w',
    alive p1 p2 T (loop w) -> run_script script w = Some (tt, w') ->
    alive p1 p2 T (loop w').
Proof.
  induction script as [|a rest IH]; intros w w' Al; simpl.
  - now intros [= <-].
  - unfold bind. destruct (act a w) as [[[] w1]|] eqn:E; [|discriminate].
    apply IH.
    destruct (act_loop _ _ _ E) as [->|[->|(fuel & ms & -> & Adv)]].
    + exact Al.
    + now apply another_call_alive.
    + eapply advance_alive; eauto.
Qed.
End Tracking.

Lemma run_script_clock (script : list action) :
  forall w w',
    Forall forward script -> run_script script w = Some (tt, w') ->
    now (loop w) <= now (loop w').
Proof.
  induction script as [|a rest IH]; intros w w' F; simpl.
  - intros [= <-]. lia.
  - unfold bind. destruct (act a w) as [[[] w1]|] eqn:E; [|discriminate].
    inversion F as [|a0 rest0 Fa Frest]; subst. intros R.
    specialize (IH _ _ Frest R).
    destruct (act_loop _ _ _ E) as [Eq|[Eq|(fuel & ms & -> & Adv)]].
    + rewrite Eq in IH. exact IH.
    + rewrite Eq in IH. exact IH.
    + apply advance_now in Adv. simpl in Fa. lia.
Qed.

(** *** Well-formed loops are the reachable ones *)

Lemma closure_ok_mono (n m : nat) (c : closure) :
  (n <= m)%nat -> closure_ok n c -> closure_ok m c.
Proof. destruct c; simpl; [lia|auto]. Qed.

Lemma reaction_ok_mono (n m : nat) (r : reaction) :
  (n <= m)%nat -> reaction_ok n r -> reaction_ok m r.
Proof.
  intros Le [C D]. split; [now apply (closure_ok_mono n)|lia].
Qed.

Lemma well_formed_empty : well_formed empty_loop.
Proof. repeat split; constructor. Qed.

Lemma settle_well_formed (q : pid) (s : settlement) (l : event_loop) :
  well_formed l -> well_formed (settle q s l).
Proof.
  intros WF. destruct (settle_spec q s l) as [->|(rs & E & ->)]; [exact WF|].
  destruct WF as (Wt & Wp & Wj).
  unfold well_formed. simpl. rewrite length_insert.
  split; [exact Wt|]. split.
  - apply Forall_insert; [exact Wp|constructor].
  - apply Forall_app. split; [exact Wj|]. apply Forall_map. simpl.
    rewrite Forall_forall in Wp.
    exact (Wp _ (list_elem_of_lookup_2 _ _ _ E)).
Qed.

Lemma call_closure_well_formed (c : closure) (arg : value) (l : event_loop) :
  well_formed l -> well_formed (snd (call_closure c arg l)).
Proof. destruct c; simpl; auto using settle_well_formed. Qed.

Lemma run_job_well_formed (j : job) (l : event_loop) :
  well_formed l -> well_formed (run_job j l).
Proof.
  intros WF. unfold run_job. destruct (job_argument j) as [v|e];
    [|now apply settle_well_formed].
  pose proof (call_closure_well_formed (on_fulfilled (job_reaction j)) v l WF).
  destruct (call_closure _ v l) as [[r|e] l1]; now apply settle_well_formed.
Qed.

Lemma drain_well_formed (fuel : nat) :
  forall l l', well_formed l -> drain fuel l = Some l' -> well_formed l'.
Proof.
  induction fuel as [|f IH]; intros [n ts ps [|j js]] l' WF; simpl;
    try discriminate; try (now intros [= <-]).
  apply IH, run_job_well_formed. destruct WF as (Wt & Wp & Wj).
  repeat split; auto. simpl in *. now inversion Wj.
Qed.

Lemma run_timers_well_formed (fuel : nat) :
  forall target l l',
    well_formed l -> run_timers fuel target l = Some l' -> well_formed l'.
Proof.
  induction fuel as [|f IH]; intros target l l' WF; simpl; [discriminate|].
  destruct (next_timer (timers l)) as [[t rest]|] eqn:E;
    [destruct (due t <=? target)|]; try (now intros [= <-]).
  set (l1 := mkLoop (Z.max (now l) (due t)) rest (promises l) (jobs l)).
  destruct (drain f (snd (call_closure (callback t) Undefined l1)))
    as [l2|] eqn:D; [|discriminate].
  apply IH. eapply drain_well_formed; [|exact D].
  apply call_closure_well_formed. destruct WF as (Wt & Wp & Wj).
  repeat split; auto. simpl.
  rewrite (next_timer_perm _ _ _ E) in Wt. now inversion Wt.
Qed.

Lemma advance_well_formed (fuel : nat) (ms : Z) (l l' : event_loop) :
  well_formed l -> advance fuel ms l = Some l' -> well_formed l'.
Proof.
  unfold advance. intros WF.
  destruct (drain fuel l) as [l1|] eqn:D; [|discriminate].
  apply run_timers_well_formed. eapply drain_well_formed; eauto.
Qed.

Lemma after_testPromise_well_formed (l : event_loop) :
  well_formed l -> well_formed (after_testPromise l).
Proof.
  intros (Wt & Wp & Wj). unfold well_formed, after_testPromise. simpl.
  rewrite length_app. simpl.
  set (n := List.length (promises l)) in *.
  split; [|split].
  - apply Forall_app. split.
    + eapply Forall_impl; [exact Wt|]. intros t.
      apply closure_ok_mono. lia.
    + repeat constructor. simpl. lia.
  - apply Forall_app. split.
    + eapply Forall_impl; [exact Wp|]. intros pr H.
      eapply Forall_impl; [exact H|]. intros r.
      apply reaction_ok_mono. lia.
    + repeat constructor; simpl; lia.
  - eapply Forall_impl; [exact Wj|]. intros j.
    apply reaction_ok_mono. lia.
Qed.

(** Whatever a client does from the empty world, the loop is well formed. *)
Lemma run_script_well_formed (script : list action) :
  forall w w',
    well_formed (loop w) -> run_script script w = Some (tt, w') ->
    well_formed (loop w').
Proof.
  induction script as [|a rest IH]; intros w w' WF; simpl.
  - now intros [= <-].
  - unfold bind. destruct (act a w) as [[[] w1]|] eqn:E; [|discriminate].
    apply IH.
    destruct (act_loop _ _ _ E) as [->|[->|(fuel & ms & -> & Adv)]].
    + exact WF.
    + now apply after_testPromise_well_formed.
    + eapply advance_well_formed; eauto.
Qed.

(** ** The promise of [testPromise] *)

Lemma tick_spec (fuel : nat) (ms : Z) (w : world) (l : event_loop) :
  advance fuel ms (loop w) = Some l ->
  tick fuel ms w = Some (tt, mkWorld (heap w) (calls w) l).
Proof. intros H. unfold tick. now rewrite H. Qed.

(** C5: in a world whose loop is well formed, [testPromise], on any
    receiver, returns a promise that is pending as long as the clock reads
    less than 1000 ms after the call and is fulfilled with 6 from then on,
    whatever the client does meanwhile with time running forwards; and
    letting [ms] milliseconds pass at once after the call does end, with the
    promise pending if [ms < 1000] and fulfilled with 6 otherwise. *)
Theorem testPromise_fulfils_with_6_after_1000 (w : world) (this : loc) :
  well_formed (loop w) ->
  exists p w1,
    testPromise this w = Some (p, w1)
    /\ (forall script w2,
          Forall forward script -> run_script script w1 = Some (tt, w2) ->
          (now (loop w2) < now (loop w) + 1000 ->
             promise_state_of p (loop w2) = Some Pending)
          /\ (now (loop w) + 1000 <= now (loop w2) ->
                promise_state_of p (loop w2) = Some (Fulfilled (Num 6))))
    /\ (forall ms, exists w2,
          tick (budget (loop w1)) ms w1 = Some (tt, w2)
          /\ (ms < 1000 -> promise_state_of p (loop w2) = Some Pending)
          /\ (1000 <= ms ->
                promise_state_of p (loop w2) = Some (Fulfilled (Num 6)))).
Proof.
  intros WF. destruct (testPromise_arms _ WF) as (A & S).
  set (n := List.length (promises (loop w))) in *.
  assert (Dn : n <> Datatypes.S n) by lia.
  eexists _, _. split; [apply testPromise_unfold|]. fold n. simpl. split.
  - intros script w2 F R.
    apply (tracked_state n (Datatypes.S n) (now (loop w) + 1000) Dn).
    refine (run_script_tracked n _ _ Dn script _ _ F _ R).
    left. simpl. split; [lia|]. split; assumption.
  - intros ms.
    destruct (advance_terminates (budget (after_testPromise (loop w))) ms
                (after_testPromise (loop w)) (le_n _)) as (l2 & Adv).
    eexists. split; [apply tick_spec; exact Adv|]. simpl.
    destruct (advance_armed n _ _ Dn _ _ _ _ A S Adv) as (Ge & Lt).
    simpl in Ge, Lt. unfold promise_state_of. split; intros H.
    + destruct Lt as ([_ A2 _ _ _] & _); [lia|]. now rewrite A2.
    + destruct Ge as (rs & D); [lia|]. now rewrite D.
Qed.

(** C6: the promise returned by [testPromise] is never rejected, whatever
    the client does afterwards, and from any state reached with time running
    forwards it is fulfilled once 1000 ms more have passed; the call itself
    and that passing of time both end. *)
Theorem testPromise_never_rejects (w : world) (this : loc) :
  well_formed (loop w) ->
  exists p w1,
    testPromise this w = Some (p, w1)
    /\ (forall script w2 reason,
          run_script script w1 = Some (tt, w2) ->
          promise_state_of p (loop w2) <> Some (Rejected reason))
    /\ (forall script w2,
          Forall forward script -> run_script script w1 = Some (tt, w2) ->
          exists w3,
            tick (budget (loop w2)) 1000 w2 = Some (tt, w3)
            /\ promise_state_of p (loop w3) = Some (Fulfilled (Num 6))).
Proof.
  intros WF. destruct (testPromise_arms _ WF) as (A & S).
  set (n := List.length (promises (loop w))) in *.
  assert (Dn : n <> Datatypes.S n) by lia.
  eexists _, _. split; [apply testPromise_unfold|]. fold n. split.
  - intros script w2 reason R.
    assert (Al : alive n (Datatypes.S n) (now (loop w) + 1000) (loop w2)).
    { refine (run_script_alive n _ _ Dn script _ _ _ R). left. auto. }
    destruct (alive_state _ _ _ _ Al) as [-> | ->]; discriminate.
  - intros script w2 F R.
    assert (Tr : tracked n (Datatypes.S n) (now (loop w) + 1000) (loop w2)).
    { refine (run_script_tracked n _ _ Dn script _ _ F _ R).
      left. simpl. split; [lia|]. split; assumption. }
    destruct (advance_terminates (budget (loop w2)) 1000 (loop w2) (le_n _))
      as (l3 & Adv).
    eexists. split; [apply tick_spec; exact Adv|]. simpl.
    pose proof (run_script_clock _ _ _ F R) as N. simpl in N.
    pose proof (advance_tracked n _ _ Dn _ 1000 _ _ ltac:(lia) Tr Adv) as Tr3.
    apply (tracked_state _ _ _ Dn _ Tr3).
    rewrite (advance_now _ _ _ _ Adv). lia.
Qed.

(** C10: [testPromise] does the same whatever its receiver, and on two
    instances made with any two lengths it returns the same promise and
    leaves the same loop, at the call and after any time has passed: the
    same timer, the same delay, the same value. *)
Theorem testPromise_independent_of_length :
  (forall this1 this2 w, testPromise this1 w = testPromise this2 w)
  /\ (forall w L1 L2 fuel ms,
        loop_view ((let* c := new_Cube L1 in
                    let* p := testPromise c in
                    let* _ := tick fuel ms in
                    ret p) w)
        = loop_view ((let* c := new_Cube L2 in
                      let* p := testPromise c in
                      let* _ := tick fuel ms in
                      ret p) w)).
Proof.
  split.
  - intros this1 this2 w. now rewrite !testPromise_unfold.
  - intros w L1 L2 fuel ms. unfold bind, new_Cube.
    rewrite !testPromise_unfold. unfold tick. simpl.
    now destruct (advance fuel ms (after_testPromise (loop w))).
Qed.

(** * Further properties of the class *)

(** ** More binary64 arithmetic *)

Lemma float_nan_iff (x : float) : x = nan <-> Prim2SF x = S754_nan.
Proof.
  split; [now intros ->|]. intros H. now apply Prim2SF_inj.
Qed.

Lemma SFmul_opp_opp (prec emax : Z) (x y : spec_float) :
  SFmul prec emax (SFopp x) (SFopp y) = SFmul prec emax x y.
Proof.
  destruct x as [sx|sx| |sx mx ex], y as [sy|sy| |sy my ey]; simpl;
    rewrite ?xorb_negb_negb; reflexivity.
Qed.

Lemma float_mul_opp_opp (x y : float) : (- x * - y = x * y)%float.
Proof.
  apply Prim2SF_inj. rewrite !mul_spec, !opp_spec. apply SFmul_opp_opp.
Qed.

Lemma SFadd_comm (prec emax : Z) (x y : spec_float) :
  SFadd prec emax x y = SFadd prec emax y x.
Proof.
  destruct x as [[|]|[|]| |sx mx ex], y as [[|]|[|]| |sy my ey];
    try reflexivity.
  simpl. now rewrite (Z.min_comm ey ex), Z.add_comm.
Qed.

Lemma float_add_comm (x y : float) : (x + y = y + x)%float.
Proof.
  apply Prim2SF_inj. rewrite !add_spec. apply SFadd_comm.
Qed.

(** A product with a finite number is never NaN unless the other factor
    is, and carries the exclusive or of the signs. *)
Lemma SFmul_finite_sign (prec emax : Z) (x : spec_float)
    (sx sy : bool) (my : positive) (ey : Z) :
  sign_of x = Some sx ->
  sign_of (SFmul prec emax x (S754_finite sy my ey)) = Some (xorb sx sy).
Proof.
  destruct x as [s|s| |s m e]; simpl; intros [= <-]; try reflexivity.
  now apply binary_round_aux_sign.
Qed.

Lemma SFmul_self_sign (prec emax : Z) (x : spec_float) (s : bool) :
  sign_of x = Some s -> sign_of (SFmul prec emax x x) = Some false.
Proof.
  destruct x as [s0|s0| |s0 m e]; simpl; intros [= <-];
    rewrite ?xorb_nilpotent; try reflexivity.
  now apply binary_round_aux_sign.
Qed.

Lemma surface_sign (L : float) (s : bool) :
  sign_of (Prim2SF L) = Some s -> sign_of (Prim2SF (L * L * 6)) = Some false.
Proof.
  intros H. rewrite mul_spec.
  change (Prim2SF 6) with (S754_finite false 6755399441055744 (-50)).
  apply (SFmul_finite_sign prec emax _ false false).
  rewrite mul_spec. now apply (SFmul_self_sign prec emax _ s).
Qed.

Lemma sign_of_None (x : float) : sign_of (Prim2SF x) = None <-> x = nan.
Proof.
  rewrite float_nan_iff. destruct (Prim2SF x); simpl; split; congruence.
Qed.

Lemma positive_of_sign (x : float) :
  sign_of (Prim2SF x) = Some false ->
  (0 <? x)%float = true \/ x = 0%float.
Proof.
  rewrite ltb_spec. change (Prim2SF 0) with (S754_zero false).
  destruct (Prim2SF x) as [s|s| |s m e] eqn:E; simpl; try discriminate;
    intros [= ->]; auto.
  right. now apply Prim2SF_inj.
Qed.

Lemma SFadd_nan_r (prec emax : Z) (x : spec_float) :
  SFadd prec emax x S754_nan = S754_nan.
Proof. now destruct x. Qed.

(** ** Lengths of either sign *)

(** X1: opposite lengths have the same surface area, whatever the
    Number. *)
Theorem getSurfaceArea_even
    (w1 w2 : world) (this1 this2 : loc) (L : float) (f1 f2 : option fn) :
  heap w1 !! this1 = Some (mkCube (Num L) f1) ->
  heap w2 !! this2 = Some (mkCube (Num (- L)) f2) ->
  fst <$> getSurfaceArea this2 w2 = fst <$> getSurfaceArea this1 w1.
Proof.
  intros H1 H2. unfold getSurfaceArea, bind.
  rewrite (get_object_lookup _ _ _ H1), (get_object_lookup _ _ _ H2).
  simpl. unfold ret, js_mul. simpl. now rewrite float_mul_opp_opp.
Qed.

Lemma getSurfaceArea_even_witness :
  heap (world_of (Num 3)) !! 0%nat = Some (mkCube (Num 3) None)
  /\ heap (world_of (Num (-3))) !! 0%nat = Some (mkCube (Num (- 3)) None)
  /\ fst <$> getSurfaceArea 0%nat (world_of (Num (-3)))
     = fst <$> getSurfaceArea 0%nat (world_of (Num 3)).
Proof.
  split; [reflexivity|]. split; [reflexivity|].
  apply (getSurfaceArea_even (world_of (Num 3)) (world_of (Num (-3)))
           0%nat 0%nat 3%float None None); reflexivity.
Defined.

(** X3: the surface area is NaN when the length is NaN and only then, and
    otherwise it is never below zero, whatever the sign and the size of the
    length: overflow gives plus infinity and underflow gives zero. *)
Theorem getSurfaceArea_never_negative
    (w : world) (this : loc) (L : float) (f : option fn) :
  heap w !! this = Some (mkCube (Num L) f) ->
  exists s,
    getSurfaceArea this w = Some (Num s, w)
    /\ (s = nan <-> L = nan)
    /\ (L <> nan -> (0 <=? s)%float = true).
Proof.
  intros H. exists (L * L * 6)%float. unfold getSurfaceArea, bind.
  rewrite (get_object_lookup _ _ _ H). split; [reflexivity|].
  destruct (sign_of (Prim2SF L)) as [b|] eqn:E.
  - pose proof (surface_sign L b E) as S. split.
    + rewrite <- !sign_of_None. rewrite E, S. split; discriminate.
    + intros _. now apply nonnegative_of_sign.
  - apply sign_of_None in E. subst L. split; [now split|congruence].
Qed.

Lemma getSurfaceArea_never_negative_witness :
  heap (world_of (Num (-3))) !! 0%nat = Some (mkCube (Num (-3)) None)
  /\ exists s,
       getSurfaceArea 0%nat (world_of (Num (-3)))
       = Some (Num s, world_of (Num (-3)))
       /\ (s = nan <-> (-3)%float = nan)
       /\ ((-3)%float <> nan -> (0 <=? s)%float = true).
Proof.
  split; [reflexivity|].
  apply (getSurfaceArea_never_negative (world_of (Num (-3))) 0%nat
           (-3)%float None); reflexivity.
Defined.

(** X4: on a conforming host the volume carries the sign of the length,
    zeros and infinities included, and is NaN when the length is NaN and
    only then: above zero or the positive zero for a length above zero,
    below zero or the negative zero for a length below zero. *)
Theorem getVolume_sign
    (w : world) (this : loc) (L : float) (f : option fn) :
  conforming Math_pow ->
  heap w !! this = Some (mkCube (Num L) f) ->
  exists v,
    getVolume this w = Some (Num v, w)
    /\ sign_of (Prim2SF v) = sign_of (Prim2SF L)
    /\ (v = nan <-> L = nan)
    /\ ((0 <? L)%float = true -> (0 <? v)%float = true \/ v = 0%float)
    /\ ((L <? 0)%float = true -> (v <? 0)%float = true \/ v = (-0)%float).
Proof.
  intros C H. exists (Math_pow L 3). unfold getVolume, bind.
  rewrite (get_object_lookup _ _ _ H). split; [reflexivity|].
  pose proof (conforming_sign L C) as S. split; [exact S|]. split; [|split].
  - now rewrite <- !sign_of_None, S.
  - intros P. apply positive_of_sign. rewrite S.
    rewrite ltb_spec in P. change (Prim2SF 0) with (S754_zero false) in P.
    destruct (Prim2SF L) as [s|[|]| |[|] m e]; try discriminate; reflexivity.
  - intros N. apply negative_of_sign. rewrite S. now apply sign_of_negative.
Qed.

(** ** The sum *)

(** X5: on operands that are [undefined], [null], booleans or Numbers,
    [add] does not depend on their order, and neither does
    [callAanotherMethod], wrapped or not; nor does [add] on two BigInts.
    Strings are concatenated in the order given: ['a' + 'b'] is ['ab'] and
    ['b' + 'a'] is ['ba']. *)
Theorem add_commutative
    (w : world) (this : loc) (o : Cube) (num1 num2 : value) :
  heap w !! this = Some o ->
  add this num1 num2 w = add this num2 num1 w
  /\ fst <$> callAanotherMethod this num1 num2 w
     = fst <$> callAanotherMethod this num2 num1 w
  /\ (forall x y : Z,
        add this (BigInt x) (BigInt y) w = add this (BigInt y) (BigInt x) w)
  /\ add this (Str [97%N]) (Str [98%N]) w = Some (Str [97%N; 98%N], w)
  /\ add this (Str [98%N]) (Str [97%N]) w = Some (Str [98%N; 97%N], w).
Proof.
  intros H.
  assert (E : js_add num1 num2 = js_add num2 num1)
    by (unfold js_add; now rewrite float_add_comm).
  split; [|split; [|split; [|split; reflexivity]]].
  - unfold add. simpl. now rewrite E.
  - unfold callAanotherMethod. rewrite !(invoke_add_lookup _ _ _ _ _ H).
    rewrite !call_fn_spec. simpl. now rewrite E.
  - intros x y. unfold add. simpl. now rewrite Z.add_comm.
Qed.

Lemma add_commutative_witness :
  heap (world_of (Num 2)) !! 0%nat = Some (mkCube (Num 2) None)
  /\ add 0%nat (Num 1) (Bool true) (world_of (Num 2))
     = add 0%nat (Bool true) (Num 1) (world_of (Num 2))
  /\ fst <$> callAanotherMethod 0%nat (Num 1) (Bool true) (world_of (Num 2))
     = fst <$> callAanotherMethod 0%nat (Bool true) (Num 1) (world_of (Num 2)).
Proof.
  split; [reflexivity|].
  pose proof (add_commutative (world_of (Num 2)) 0%nat (mkCube (Num 2) None)
                (Num 1) (Bool true) ltac:(reflexivity)) as (A & B & _).
  split; [exact A|exact B].
Defined.

(** X6: when either argument is [undefined], as an argument left out is, or
    is NaN, and the other is [undefined], [null], a boolean or a Number,
    [add] returns NaN and changes nothing, and [callAanotherMethod] returns
    NaN and changes neither the store nor the event loop, nor anything at
    all on an instance whose [add] is not wrapped: a missing operand is not
    an error.  Beside a String, [undefined] is spelled out instead:
    [undefined + 'a'] is ['undefineda']. *)
Theorem add_of_undefined_is_NaN
    (w : world) (this : loc) (o : Cube) (num1 num2 : value) :
  heap w !! this = Some o ->
  ToNumber num1 = nan \/ ToNumber num2 = nan ->
  add this num1 num2 w = Some (Num nan, w)
  /\ (exists w', callAanotherMethod this num1 num2 w = Some (Num nan, w')
                 /\ heap w' = heap w /\ loop w' = loop w)
  /\ (own_add o = None ->
      callAanotherMethod this num1 num2 w = Some (Num nan, w))
  /\ ToNumber Undefined = nan
  /\ add this Undefined (Str [97%N]) w
     = Some (Str [117; 110; 100; 101; 102; 105; 110; 101; 100; 97]%N, w).
Proof.
  intros H N.
  assert (E : js_add num1 num2 = Num nan).
  { unfold js_add. f_equal. apply Prim2SF_inj. rewrite add_spec.
    destruct N as [-> | ->]; [reflexivity|].
    change (Prim2SF nan) with S754_nan. apply SFadd_nan_r. }
  assert (A : add this num1 num2 w = Some (Num nan, w))
    by (unfold add; simpl; now rewrite E).
  split; [exact A|]. split; [|split; [|split; reflexivity]].
  - unfold callAanotherMethod. rewrite (invoke_add_lookup _ _ _ _ _ H).
    rewrite call_fn_spec, E. eexists. split; [reflexivity|]. now split.
  - intros P. unfold callAanotherMethod.
    rewrite (invoke_add_lookup _ _ _ _ _ H). unfold lookup_add.
    rewrite P. exact A.
Qed.

Lemma add_of_undefined_is_NaN_witness :
  heap (world_of (Num 2)) !! 0%nat = Some (mkCube (Num 2) None)
  /\ (ToNumber (Num 1) = nan \/ ToNumber Undefined = nan)
  /\ add 0%nat (Num 1) Undefined (world_of (Num 2))
     = Some (Num nan, world_of (Num 2)).
Proof.
  split; [reflexivity|]. split; [right; reflexivity|].
  exact (proj1 (add_of_undefined_is_NaN (world_of (Num 2)) 0%nat
                  (mkCube (Num 2) None) (Num 1) Undefined
                  ltac:(reflexivity) ltac:(right; reflexivity))).
Defined.

(** ** Integer lengths *)

Lemma integers_within_In (N : nat) (n : Z) :
  - Z.of_nat N <= n <= Z.of_nat N -> In n (integers_within N).
Proof.
  intros H. unfold integers_within. apply in_map_iff.
  exists (Z.to_nat (n + Z.of_nat N)). split; [lia|].
  apply in_seq. lia.
Qed.

Lemma exact_up_to_1000 :
  forallb exact_at (integers_within 1000) = true.
Proof. vm_cast_no_check (eq_refl true). Qed.

Lemma is_integer_spec (x : float) (z : Z) :
  is_integer x z = true -> Z_of_Number x = Some z.
Proof.
  unfold is_integer. destruct (Z_of_Number x) as [y|]; [|discriminate].
  intros E. f_equal. now apply Z.eqb_eq.
Qed.

Lemma exact_cubeb_spec (x c : spec_float) :
  exact_cubeb x c = true -> exact_cube x c.
Proof.
  destruct x as [| | |s m e], c as [| | |s' m' e']; try discriminate.
  cbn [exact_cubeb exact_cube]. rewrite !andb_true_iff, Z.leb_le, Z.eqb_eq.
  intros [[S E] M]. apply eqb_prop in S. auto.
Qed.

(** X7: on every integer length from -1000 to 1000 nothing is rounded:
    the side length is the integer [n], the surface area is the integer
    [6 * n * n] and, on a conforming host, the volume is the integer
    [n * n * n]. *)
Theorem integer_lengths_exact
    (w : world) (this : loc) (n : Z) (f : option fn) :
  conforming Math_pow ->
  -1000 <= n <= 1000 ->
  heap w !! this = Some (mkCube (Num (Number_of_Z n)) f) ->
  exists side s v,
    getSideLength this w = Some (Num side, w)
    /\ Z_of_Number side = Some n
    /\ getSurfaceArea this w = Some (Num s, w)
    /\ Z_of_Number s = Some (6 * n * n)
    /\ getVolume this w = Some (Num v, w)
    /\ Z_of_Number v = Some (n * n * n).
Proof.
  intros C R H.
  pose proof exact_up_to_1000 as E. rewrite forallb_forall in E.
  specialize (E n (integers_within_In 1000 n ltac:(lia))).
  unfold exact_at in E. rewrite !andb_true_iff in E.
  destruct E as [[[E1 E2] E3] E4].
  eexists _, _, _. unfold getSideLength, getSurfaceArea, getVolume, bind.
  rewrite (get_object_lookup _ _ _ H). simpl.
  split; [reflexivity|]. split; [now apply is_integer_spec|].
  split; [reflexivity|]. split; [now apply is_integer_spec|].
  split; [reflexivity|].
  apply orb_true_iff in E4. destruct E4 as [Z|X].
  - apply Z.eqb_eq in Z. subst n.
    assert (P : Math_pow (Number_of_Z 0) 3 = 0%float).
    { apply Prim2SF_inj. apply (C (Number_of_Z 0)). }
    now rewrite P.
  - rewrite (conforming_exact _ _ _ C (exact_cubeb_spec _ _ X)).
    now apply is_integer_spec.
Qed.

(** ** The spy *)

(** What a call of [add] on an instance returns does not depend on what
    its property [add] holds. *)
Lemma invoke_add_result
    (this : loc) (o : Cube) (num1 num2 : any) (w : world) :
  heap w !! this = Some o ->
  fst <$> invoke_add this num1 num2 w = any_add num1 num2.
Proof.
  intros H. rewrite (invoke_add_lookup _ _ _ _ _ H).
  destruct (any_add num1 num2) as [r|] eqn:E.
  - now rewrite (call_fn_sum _ _ _ _ _ E).
  - now rewrite (call_fn_None _ _ _ _ E).
Qed.

Lemma invoke_add_dangling (this : loc) (num1 num2 : any) (w : world) :
  heap w !! this = None -> invoke_add this num1 num2 w = None.
Proof. intros H. unfold invoke_add, bind, get_object. now rewrite H. Qed.

Lemma fmap_bind_returned (m : M any) (w : world) :
  fst <$> (let* v := m in ret (returned v)) w = returned <$> (fst <$> m w).
Proof. unfold bind. now destruct (m w) as [[v w']|]. Qed.

(** X8: wrapping [add] of an instance with a spy changes no result: every
    method, on the wrapped instance or on any other, returns what it
    returned before, and the call log and the event loop are as they
    were. *)
Theorem spy_changes_no_result
    (w w1 : world) (obj this : loc) (op : operation) :
  sinon_spy obj w = Some (tt, w1) ->
  fst <$> perform op this w1 = fst <$> perform op this w
  /\ calls w1 = calls w
  /\ loop w1 = loop w.
Proof.
  unfold sinon_spy. destruct (heap w !! obj) as [o|] eqn:E; [|discriminate].
  destruct (lookup_add o) eqn:P; [|discriminate].
  intros [= <-]. split; [|split; reflexivity].
  set (o' := mkCube (length o) (Some (spy_on Cube_prototype_add))).
  set (w1 := mkWorld (<[obj := o']> (heap w)) (calls w) (loop w)).
  assert (I : forall num1 num2,
            fst <$> invoke_add this num1 num2 w1
            = fst <$> invoke_add this num1 num2 w).
  { intros num1 num2. destruct (decide (obj = this)) as [<-|N].
    - rewrite (invoke_add_result obj o' _ _ w1) by apply lookup_insert_eq.
      now rewrite (invoke_add_result obj o _ _ w).
    - destruct (heap w !! this) as [o2|] eqn:E2.
      + rewrite (invoke_add_result this o2 _ _ w1)
          by (simpl; now rewrite lookup_insert_ne).
        now rewrite (invoke_add_result this o2 _ _ w).
      + rewrite (invoke_add_dangling this _ _ w1)
          by (simpl; now rewrite lookup_insert_ne).
        now rewrite (invoke_add_dangling this _ _ w). }
  destruct op; unfold perform.
  1, 2: unfold callAanotherMethod; rewrite !fmap_bind_returned; now rewrite I.
  4: reflexivity.
  all: unfold getSideLength, getSurfaceArea, getVolume, bind, get_object;
       simpl; destruct (decide (obj = this)) as [<-|N];
       [rewrite lookup_insert_eq, E; simpl
       |rewrite lookup_insert_ne by exact N;
        destruct (heap w !! this) as [o2|]; [simpl|reflexivity]].
  - reflexivity.
  - reflexivity.
  - destruct (any_mul (length o) (length o)) as [sq|]; simpl;
      [now destruct (any_mul sq (Num 6))|reflexivity].
  - destruct (any_mul (length o2) (length o2)) as [sq|]; simpl;
      [now destruct (any_mul sq (Num 6))|reflexivity].
  - now destruct (any_ToNumber (length o)).
  - now destruct (any_ToNumber (length o2)).
Qed.

Lemma delegation_recorded
    (w : world) (this : loc) (o : Cube) (num1 num2 : value) :
  heap w !! this = Some o ->
  act (do_call this (op_callAanotherMethod num1 num2)) w
  = Some (tt, mkWorld (heap w)
                      (calls w ++ replicate (spy_depth (lookup_add o))
                                            (mkCall this num1 num2))
                      (loop w)).
Proof.
  intros H. simpl. unfold bind, callAanotherMethod.
  rewrite (invoke_add_lookup _ _ _ _ _ H), call_fn_spec. reflexivity.
Qed.

(** X9: after [sinon.spy] has wrapped [add] of an instance, any number of
    calls of [callAanotherMethod] on it are recorded one for one, in the
    order made and each with its arguments, and nothing else in the world
    changes; the same calls on an instance that is not wrapped record
    nothing. *)
Theorem delegations_recorded_one_for_one
    (this : loc) (args : list (value * value)) :
  forall (w : world) (o : Cube),
    heap w !! this = Some o ->
    (own_add o = Some (spy_on Cube_prototype_add) ->
     run_script (delegations this args) w
     = Some (tt,
             mkWorld (heap w)
                     (calls w
                      ++ map (fun ab : value * value =>
                                mkCall this (fst ab) (snd ab)) args)
                     (loop w)))
    /\ (own_add o = None ->
        run_script (delegations this args) w = Some (tt, w)).
Proof.
  induction args as [|[a b] args IH]; intros w o H.
  - split; intros _; simpl; unfold ret; [|reflexivity].
    rewrite app_nil_r. now destruct w.
  - change (run_script (delegations this ((a, b) :: args)) w)
      with (bind (act (do_call this (op_callAanotherMethod a b)))
                 (fun _ => run_script (delegations this args)) w).
    unfold bind. rewrite (delegation_recorded _ _ _ _ _ H). unfold lookup_add.
    split; intros E; rewrite E; simpl replicate.
    + destruct (IH (mkWorld (heap w) (calls w ++ [mkCall this a b]) (loop w))
                   o H) as [IH1 _].
      rewrite (IH1 E). simpl. now rewrite <- app_assoc.
    + rewrite app_nil_r. destruct w as [h c l]. simpl in *.
      destruct (IH (mkWorld h c l) o H) as [_ IH2]. exact (IH2 E).
Qed.

(** ** Several calls of [testPromise] *)

(** X10: two calls of [testPromise], on any receivers and with anything the
    client does between and after them as time runs forwards, return two
    different promises, and each is pending until 1000 ms after its own call
    and fulfilled with 6 from then on: the calls do not disturb each
    other. *)
Theorem two_calls_of_testPromise
    (w w1 w2 w3 : world) (this1 this2 : loc) (p q : pid)
    (between : list action) :
  well_formed (loop w) ->
  Forall forward between ->
  testPromise this1 w = Some (p, w1) ->
  run_script between w1 = Some (tt, w2) ->
  testPromise this2 w2 = Some (q, w3) ->
  p <> q
  /\ forall after w4,
       Forall forward after -> run_script after w3 = Some (tt, w4) ->
       fulfilled_from p (now (loop w) + 1000) (loop w4)
       /\ fulfilled_from q (now (loop w2) + 1000) (loop w4).
Proof.
  intros WF Fb C1 Rb C2.
  rewrite testPromise_unfold in C1. injection C1 as <- <-.
  rewrite testPromise_unfold in C2. injection C2 as <- <-.
  set (n := List.length (promises (loop w))) in *.
  set (m := List.length (promises (loop w2))) in *.
  assert (Dn : n <> Datatypes.S n) by lia.
  assert (Dm : m <> Datatypes.S m) by lia.
  destruct (testPromise_arms _ WF) as (A & S). fold n in A, S.
  assert (Tr2 : tracked n (Datatypes.S n) (now (loop w) + 1000) (loop w2)).
  { refine (run_script_tracked n _ _ Dn between _ _ Fb _ Rb).
    left. simpl. split; [lia|]. split; assumption. }
  assert (WF2 : well_formed (loop w2)).
  { refine (run_script_well_formed between _ _ _ Rb).
    simpl. now apply after_testPromise_well_formed. }
  destruct (testPromise_arms _ WF2) as (A2 & S2). fold m in A2, S2.
  split.
  - assert (Lt : (Datatypes.S n < m)%nat).
    { destruct Tr2 as [(_ & [_ H _ _ _] & _)|(_ & rs & H)];
        eapply lookup_lt_Some; exact H. }
    lia.
  - intros after w4 Fa Ra. split.
    + apply (tracked_state n (Datatypes.S n) _ Dn).
      refine (run_script_tracked n _ _ Dn after _ _ Fa _ Ra).
      simpl. now apply another_call_tracked.
    + apply (tracked_state m (Datatypes.S m) _ Dm).
      refine (run_script_tracked m _ _ Dm after _ _ Fa _ Ra).
      left. simpl. split; [lia|]. split; assumption.
Qed.

(** ** Every world a client can reach *)

(** X11: whatever a client does from the empty world (calls of any method,
    new instances, spies, time passing), every promise that a timer, a
    reaction or a job of the loop names has been created: the loop is well
    formed, which is what the results on [testPromise] ask of the world they
    start in. *)
Theorem reachable_worlds_are_well_formed (script : list action) (w : world) :
  run_script script empty_world = Some (tt, w) -> well_formed (loop w).
Proof.
  apply run_script_well_formed. exact well_formed_empty.
Qed.

(** *** No rejection anywhere *)

Lemma no_rejection_empty : no_rejection empty_loop.
Proof. split; constructor. Qed.

Lemma settle_no_rejection (q : pid) (v : value) (l : event_loop) :
  no_rejection l -> no_rejection (settle q (fulfilled_with v) l).
Proof.
  intros NR. destruct (settle_spec q (fulfilled_with v) l)
    as [->|(rs & E & ->)]; [exact NR|].
  destruct NR as (Np & Nj). split; simpl.
  - apply Forall_insert; [exact Np|]. simpl. discriminate.
  - apply Forall_app. split; [exact Nj|]. apply Forall_map. simpl.
    apply Forall_forall. eauto.
Qed.

Lemma call_closure_no_rejection (c : closure) (arg : value) (l : event_loop) :
  no_rejection l ->
  no_rejection (snd (call_closure c arg l))
  /\ exists r, fst (call_closure c arg l) = Normal r.
Proof.
  destruct c; simpl; eauto using settle_no_rejection.
Qed.

Lemma run_job_no_rejection (j : job) (l : event_loop) :
  (exists v, job_argument j = fulfilled_with v) ->
  no_rejection l -> no_rejection (run_job j l).
Proof.
  intros (v & E) NR. unfold run_job. rewrite E.
  destruct (call_closure_no_rejection (on_fulfilled (job_reaction j)) v l NR)
    as (NR1 & r & N).
  destruct (call_closure _ v l) as [c l1]. simpl in *. subst c.
  now apply settle_no_rejection.
Qed.

Lemma drain_no_rejection (fuel : nat) :
  forall l l', no_rejection l -> drain fuel l = Some l' -> no_rejection l'.
Proof.
  induction fuel as [|f IH]; intros [n ts ps [|j js]] l' NR; simpl;
    try discriminate; try (now intros [= <-]).
  destruct NR as (Np & Nj). simpl in *.
  inversion Nj as [|j0 js0 Hj Hjs]; subst.
  apply IH, run_job_no_rejection; [exact Hj|]. now split.
Qed.

Lemma run_timers_no_rejection (fuel : nat) :
  forall target l l',
    no_rejection l -> run_timers fuel target l = Some l' -> no_rejection l'.
Proof.
  induction fuel as [|f IH]; intros target l l' NR; simpl; [discriminate|].
  destruct (next_timer (timers l)) as [[t rest]|];
    [destruct (due t <=? target)|]; try (now intros [= <-]).
  set (l1 := mkLoop (Z.max (now l) (due t)) rest (promises l) (jobs l)).
  destruct (drain f (snd (call_closure (callback t) Undefined l1)))
    as [l2|] eqn:D; [|discriminate].
  apply IH. eapply drain_no_rejection; [|exact D].
  now apply call_closure_no_rejection.
Qed.

Lemma advance_no_rejection (fuel : nat) (ms : Z) (l l' : event_loop) :
  no_rejection l -> advance fuel ms l = Some l' -> no_rejection l'.
Proof.
  unfold advance. intros NR.
  destruct (drain fuel l) as [l1|] eqn:D; [|discriminate].
  apply run_timers_no_rejection. eapply drain_no_rejection; eauto.
Qed.

Lemma after_testPromise_no_rejection (l : event_loop) :
  no_rejection l -> no_rejection (after_testPromise l).
Proof.
  intros (Np & Nj). split; simpl; [|exact Nj].
  apply Forall_app. split; [exact Np|]. repeat constructor; discriminate.
Qed.

Lemma run_script_no_rejection (script : list action) :
  forall w w',
    no_rejection (loop w) -> run_script script w = Some (tt, w') ->
    no_rejection (loop w').
Proof.
  induction script as [|a rest IH]; intros w w' NR; simpl.
  - now intros [= <-].
  - unfold bind. destruct (act a w) as [[[] w1]|] eqn:E; [|discriminate].
    apply IH.
    destruct (act_loop _ _ _ E) as [->|[->|(fuel & ms & -> & Adv)]].
    + exact NR.
    + now apply after_testPromise_no_rejection.
    + eapply advance_no_rejection; eauto.
Qed.

(** X12: in no world that a client can reach from the empty one is any
    promise rejected, the inner promises of [testPromise] included, and no
    job waiting in the queue carries a rejection: the handlers of the class
    never throw and its [reject] is never called. *)
Theorem no_promise_is_ever_rejected
    (script : list action) (w : world) (p : pid) (reason : value) :
  run_script script empty_world = Some (tt, w) ->
  promise_state_of p (loop w) <> Some (Rejected reason)
  /\ no_rejection (loop w).
Proof.
  intros R.
  pose proof (run_script_no_rejection script empty_world w
                no_rejection_empty R) as NR.
  split; [|exact NR]. destruct NR as (Np & _).
  unfold promise_state_of.
  destruct (promises (loop w) !! p) as [pr|] eqn:E; [|discriminate].
  rewrite Forall_forall in Np. simpl. intros [= H].
  exact (Np pr (list_elem_of_lookup_2 _ _ _ E) reason H).
Qed.

(** ** After time has passed *)

Lemma drain_jobs (fuel : nat) :
  forall l l', drain fuel l = Some l' -> jobs l' = [].
Proof.
  induction fuel as [|f IH]; intros [n ts ps [|j js]] l'; simpl;
    try discriminate; try (now intros [= <-]).
  apply IH.
Qed.

Lemma run_timers_quiet (fuel : nat) :
  forall target l l',
    jobs l = [] -> run_timers fuel target l = Some l' -> jobs l' = [].
Proof.
  induction fuel as [|f IH]; intros target l l' J; simpl; [discriminate|].
  destruct (next_timer (timers l)) as [[t rest]|];
    [destruct (due t <=? target)|]; try (now intros [= <-]).
  set (l1 := mkLoop (Z.max (now l) (due t)) rest (promises l) (jobs l)).
  destruct (drain f (snd (call_closure (callback t) Undefined l1)))
    as [l2|] eqn:D; [|discriminate].
  apply IH. exact (drain_jobs _ _ _ D).
Qed.

(** The timer that fires leaves the others in their order. *)
Lemma next_timer_filter (target : Z) (ts : list timer) :
  forall t rest,
    next_timer ts = Some (t, rest) -> due t <= target ->
    filter (fun t' => target < due t') rest
    = filter (fun t' => target < due t') ts.
Proof.
  induction ts as [|t0 ts IH]; intros t rest; simpl; [discriminate|].
  destruct (next_timer ts) as [[t' rest']|] eqn:E.
  - destruct (due t' <? due t0); intros [= <- <-] Le.
    + rewrite !filter_cons. now rewrite (IH _ _ eq_refl Le).
    + rewrite (filter_cons_False _ t0) by lia. reflexivity.
  - intros [= <- <-] Le. rewrite (next_timer_None _ E).
    now rewrite filter_cons_False by lia.
Qed.

Lemma filter_all_later (target : Z) (ts : list timer) :
  Forall (fun t => target < due t) ts ->
  filter (fun t => target < due t) ts = ts.
Proof.
  induction 1 as [|t ts H _ IH]; [reflexivity|].
  rewrite filter_cons_True by exact H. now rewrite IH.
Qed.

(** The timers left by [run_timers] are those due later, in their order. *)
Lemma run_timers_filter (fuel : nat) :
  forall target l l',
    run_timers fuel target l = Some l' ->
    timers l' = filter (fun t => target < due t) (timers l).
Proof.
  induction fuel as [|f IH]; intros target l l'; simpl; [discriminate|].
  destruct (next_timer (timers l)) as [[t rest]|] eqn:E.
  - destruct (due t <=? target) eqn:C.
    + set (l1 := mkLoop (Z.max (now l) (due t)) rest (promises l) (jobs l)).
      destruct (drain f (snd (call_closure (callback t) Undefined l1)))
        as [l2|] eqn:D; [|discriminate].
      intros R. rewrite (IH _ _ _ R), (drain_timers _ _ _ D).
      destruct (call_closure_work (callback t) Undefined l1) as (_ & -> & _).
      simpl. apply (next_timer_filter _ _ _ _ E). lia.
    + intros [= <-]. simpl. symmetry. apply filter_all_later.
      eapply Forall_impl; [exact (next_timer_earliest _ _ _ E)|].
      simpl. intros t' Le. lia.
  - intros [= <-]. simpl. now rewrite (next_timer_None _ E).
Qed.

(** A promise that is settled stays as it is. *)
Lemma settle_keeps (q p : pid) (s : settlement) (l : event_loop) :
  promise_state_of p l <> Some Pending ->
  promise_state_of p (settle q s l) = promise_state_of p l.
Proof.
  intros N. destruct (settle_spec q s l) as [->|(rs & H & ->)];
    [reflexivity|].
  unfold promise_state_of in *. simpl.
  destruct (decide (q = p)) as [->|D].
  - rewrite H in N. now elim N.
  - now rewrite list_lookup_insert_ne.
Qed.

(** The promise that is resolved is pending no more. *)
Lemma settle_settles (p : pid) (s : settlement) (l : event_loop) :
  promise_state_of p (settle p s l) <> Some Pending.
Proof.
  unfold settle, promise_state_of.
  destruct (promises l !! p) as [[st rs]|] eqn:H; [|now rewrite H].
  destruct st; try (rewrite H; discriminate).
  simpl. rewrite list_lookup_insert_eq by (now apply lookup_lt_Some in H).
  now destruct s.
Qed.

Lemma call_closure_keeps
    (c : closure) (arg : value) (p : pid) (l : event_loop) :
  promise_state_of p l <> Some Pending ->
  promise_state_of p (snd (call_closure c arg l)) = promise_state_of p l.
Proof. destruct c; simpl; [apply settle_keeps|reflexivity]. Qed.

Lemma run_job_keeps (j : job) (p : pid) (l : event_loop) :
  promise_state_of p l <> Some Pending ->
  promise_state_of p (run_job j l) = promise_state_of p l.
Proof.
  intros N. unfold run_job. destruct (job_argument j) as [v|e];
    [|now apply settle_keeps].
  pose proof (call_closure_keeps (on_fulfilled (job_reaction j)) v p l N) as K.
  destruct (call_closure (on_fulfilled (job_reaction j)) v l) as [[r|e] l1];
    simpl in K; (rewrite settle_keeps; [exact K|now rewrite K]).
Qed.

Lemma drain_keeps (fuel : nat) (p : pid) :
  forall l l',
    drain fuel l = Some l' -> promise_state_of p l <> Some Pending ->
    promise_state_of p l' = promise_state_of p l.
Proof.
  induction fuel as [|f IH]; intros [n ts ps [|j js]] l'; simpl;
    try discriminate; try (now intros [= <-]).
  intros D N.
  pose proof (run_job_keeps j p (mkLoop n ts ps js) N) as K.
  rewrite (IH _ _ D) by (now rewrite K). exact K.
Qed.

Lemma run_timers_keeps (fuel : nat) (p : pid) :
  forall target l l',
    run_timers fuel target l = Some l' ->
    promise_state_of p l <> Some Pending ->
    promise_state_of p l' = promise_state_of p l.
Proof.
  induction fuel as [|f IH]; intros target l l'; simpl; [discriminate|].
  destruct (next_timer (timers l)) as [[t rest]|];
    [destruct (due t <=? target)|]; try (now intros [= <-]).
  set (l1 := mkLoop (Z.max (now l) (due t)) rest (promises l) (jobs l)).
  destruct (drain f (snd (call_closure (callback t) Undefined l1)))
    as [l2|] eqn:D; [|discriminate].
  intros R N.
  pose proof (call_closure_keeps (callback t) Undefined p l1 N) as K1.
  pose proof (drain_keeps _ p _ _ D ltac:(now rewrite K1)) as K2.
  rewrite (IH _ _ _ R) by (now rewrite K2, K1). now rewrite K2, K1.
Qed.

(** Every timer of [testPromise] that was due has resolved its promise. *)
Lemma run_timers_fires (fuel : nat) :
  forall target l l',
    run_timers fuel target l = Some l' ->
    forall t p,
      t ∈ timers l -> due t <= target -> callback t = timeout_handler p ->
      promise_state_of p l' <> Some Pending.
Proof.
  induction fuel as [|f IH]; intros target l l'; simpl; [discriminate|].
  destruct (next_timer (timers l)) as [[t0 rest]|] eqn:E.
  - destruct (due t0 <=? target) eqn:C.
    + set (l1 := mkLoop (Z.max (now l) (due t0)) rest (promises l) (jobs l)).
      destruct (drain f (snd (call_closure (callback t0) Undefined l1)))
        as [l2|] eqn:D; [|discriminate].
      intros R t p I Le Cb.
      rewrite (next_timer_perm _ _ _ E) in I.
      apply elem_of_cons in I. destruct I as [->|I].
      * assert (S : promise_state_of p
                      (snd (call_closure (callback t0) Undefined l1))
                    <> Some Pending)
          by (rewrite Cb; simpl; apply settle_settles).
        pose proof (drain_keeps _ p _ _ D S) as K.
        rewrite (run_timers_keeps _ p _ _ _ R) by (now rewrite K).
        now rewrite K.
      * apply (IH _ _ _ R t p); [|exact Le|exact Cb].
        rewrite (drain_timers _ _ _ D).
        now destruct (call_closure_work (callback t0) Undefined l1)
          as (_ & -> & _).
    + intros _ t p I Le _.
      pose proof (next_timer_earliest _ _ _ E) as F.
      rewrite Forall_forall in F. specialize (F t I). lia.
  - intros _ t p I. rewrite (next_timer_None _ E) in I.
    now apply elem_of_nil in I.
Qed.

(** X13: letting time pass always comes to an end, and then nothing is left
    over.  No job waits in the queue; the clock has moved on by exactly the
    time given; the timers still set are those that were due later, in the
    order they were set; every timer of a [testPromise] that was due has
    fired, its promise being pending no more; and a promise that was
    settled before is as it was. *)
Theorem nothing_overdue_after_tick (ms : Z) (w : world) :
  (exists w', tick (budget (loop w)) ms w = Some (tt, w'))
  /\ forall fuel w',
       tick fuel ms w = Some (tt, w') ->
       jobs (loop w') = []
       /\ now (loop w') = now (loop w) + ms
       /\ timers (loop w')
          = filter (fun t => now (loop w) + ms < due t) (timers (loop w))
       /\ (forall t p,
             t ∈ timers (loop w) -> due t <= now (loop w) + ms ->
             callback t = timeout_handler p ->
             promise_state_of p (loop w') <> Some Pending)
       /\ (forall p,
             promise_state_of p (loop w) <> Some Pending ->
             promise_state_of p (loop w') = promise_state_of p (loop w)).
Proof.
  split.
  { destruct (advance_terminates (budget (loop w)) ms (loop w)) as [l A];
      [lia|].
    exists (mkWorld (heap w) (calls w) l). now apply tick_spec. }
  intros fuel w'. unfold tick.
  destruct (advance fuel ms (loop w)) as [l|] eqn:A; [|discriminate].
  intros [= <-]. simpl. pose proof (advance_now _ _ _ _ A) as N.
  unfold advance in A.
  destruct (drain fuel (loop w)) as [l1|] eqn:D; [|discriminate].
  pose proof (drain_timers _ _ _ D) as T1.
  split; [exact (run_timers_quiet _ _ _ _ (drain_jobs _ _ _ D) A)|].
  split; [exact N|].
  split; [now rewrite (run_timers_filter _ _ _ _ A), T1|].
  split.
  - intros t p I Le Cb.
    apply (run_timers_fires _ _ _ _ A t p); [now rewrite T1|exact Le|exact Cb].
  - intros p S. pose proof (drain_keeps _ p _ _ D S) as K.
    rewrite (run_timers_keeps _ p _ _ _ A) by (now rewrite K). exact K.
Qed.

Lemma nothing_overdue_after_tick_witness :
  exists w',
    tick 3 1000 (mkWorld ∅ [] (after_testPromise empty_loop)) = Some (tt, w')
    /\ jobs (loop w') = []
    /\ now (loop w') = 1000
    /\ timers (loop w') = []
    /\ promise_state_of 0%nat (loop w') <> Some Pending.
Proof.
  eexists. split; [vm_compute; reflexivity|].
  lazymatch goal with
  | |- jobs (loop ?x) = [] /\ _ =>
      assert (E : tick 3 1000 (mkWorld ∅ [] (after_testPromise empty_loop))
                  = Some (tt, x)) by (vm_compute; reflexivity);
      destruct (proj2 (nothing_overdue_after_tick
                         1000 (mkWorld ∅ [] (after_testPromise empty_loop)))
                      3%nat x E) as (J & N & T & F & _)
  end.
  split; [exact J|]. split; [exact N|]. split; [exact T|].
  apply (F (mkTimer 1000 (timeout_handler 0%nat)) 0%nat);
    [simpl; apply elem_of_cons; now left|simpl; lia|reflexivity].
Defined.

End Host.


(** * The class on the reference host

    The properties above hold on every host, those of the volume on every
    conforming one.  Here they are taken at [reference_pow], which conforms,
    and the tests of the repository are run on it. *)

Lemma getVolume_cube_witness :
  conforming reference_pow
  /\ heap (world_of (Num 3)) !! 0%nat = Some (mkCube (Num 3) None)
  /\ getVolume reference_pow 0%nat (world_of (Num 3))
     = Some (Num 27, world_of (Num 3)).
Proof.
  split; [exact reference_pow_conforming|]. split; [reflexivity|].
  destruct (getVolume_cube reference_pow (world_of (Num 3)) 0%nat 3%float None
              reference_pow_conforming ltac:(reflexivity))
    as (v & E & _ & _ & _ & _ & E3 & _).
  rewrite E. now rewrite (E3 ltac:(reflexivity)).
Defined.

Lemma negative_length_signs_witness :
  conforming reference_pow
  /\ (-2 <? 0)%float = true
  /\ heap (world_of (Num (-2))) !! 0%nat = Some (mkCube (Num (-2)) None)
  /\ exists s v,
       getSurfaceArea 0%nat (world_of (Num (-2)))
       = Some (Num s, world_of (Num (-2)))
       /\ (0 <=? s)%float = true
       /\ getVolume reference_pow 0%nat (world_of (Num (-2)))
          = Some (Num v, world_of (Num (-2)))
       /\ ((v <? 0)%float = true \/ v = (-0)%float).
Proof.
  split; [exact reference_pow_conforming|].
  split; [reflexivity|]. split; [reflexivity|].
  apply (negative_length_signs reference_pow (world_of (Num (-2))) 0%nat
           (-2)%float None reference_pow_conforming);
    reflexivity.
Defined.

Lemma length_is_never_mutated_witness :
  accessor op_getVolume = true
  /\ heap (world_of (Num 3)) !! 0%nat = Some (mkCube (Num 3) None)
  /\ exists w',
       run_script reference_pow
                  [do_call 0%nat op_testPromise; do_new (Num 5);
                   do_spy 0%nat; do_tick 3 1000;
                   do_call 0%nat (op_callAanotherMethod (Num 1) (Num 2))]
                  (world_of (Num 3)) = Some (tt, w')
       /\ fst <$> perform reference_pow op_getVolume 0%nat w'
          = fst <$> perform reference_pow op_getVolume 0%nat
                      (world_of (Num 3)).
Proof.
  split; [reflexivity|]. split; [reflexivity|].
  eexists. split; [vm_compute; reflexivity|].
  apply (proj1 (proj2 (proj2 (proj2 (length_is_never_mutated reference_pow))))
           op_getVolume 0%nat (mkCube (Num 3) None) (world_of (Num 3))
           [do_call 0%nat op_testPromise; do_new (Num 5);
            do_spy 0%nat; do_tick 3 1000;
            do_call 0%nat (op_callAanotherMethod (Num 1) (Num 2))]);
    [reflexivity|reflexivity|vm_compute; reflexivity].
Defined.

Lemma testPromise_fulfils_with_6_after_1000_witness :
  well_formed (loop empty_world)
  /\ exists p w1,
       testPromise 0%nat empty_world = Some (p, w1)
       /\ (forall script w2,
             Forall forward script ->
             run_script reference_pow script w1 = Some (tt, w2) ->
             (now (loop w2) < now (loop empty_world) + 1000 ->
                promise_state_of p (loop w2) = Some Pending)
             /\ (now (loop empty_world) + 1000 <= now (loop w2) ->
                   promise_state_of p (loop w2) = Some (Fulfilled (Num 6))))
       /\ (forall ms, exists w2,
             tick (budget (loop w1)) ms w1 = Some (tt, w2)
             /\ (ms < 1000 -> promise_state_of p (loop w2) = Some Pending)
             /\ (1000 <= ms ->
                   promise_state_of p (loop w2) = Some (Fulfilled (Num 6)))).
Proof.
  assert (WF : well_formed (loop empty_world)) by (repeat split; constructor).
  split; [exact WF|].
  exact (testPromise_fulfils_with_6_after_1000 reference_pow empty_world 0%nat
           WF).
Defined.

Lemma testPromise_never_rejects_witness :
  well_formed (loop empty_world)
  /\ exists p w1,
       testPromise 0%nat empty_world = Some (p, w1)
       /\ (forall script w2 reason,
             run_script reference_pow script w1 = Some (tt, w2) ->
             promise_state_of p (loop w2) <> Some (Rejected reason))
       /\ (forall script w2,
             Forall forward script ->
             run_script reference_pow script w1 = Some (tt, w2) ->
             exists w3,
               tick (budget (loop w2)) 1000 w2 = Some (tt, w3)
               /\ promise_state_of p (loop w3) = Some (Fulfilled (Num 6))).
Proof.
  assert (WF : well_formed (loop empty_world)) by (repeat split; constructor).
  split; [exact WF|].
  exact (testPromise_never_rejects reference_pow empty_world 0%nat WF).
Defined.

Lemma getVolume_sign_witness :
  conforming reference_pow
  /\ heap (world_of (Num (-3))) !! 0%nat = Some (mkCube (Num (-3)) None)
  /\ exists v,
       getVolume reference_pow 0%nat (world_of (Num (-3)))
       = Some (Num v, world_of (Num (-3)))
       /\ sign_of (Prim2SF v) = sign_of (Prim2SF (-3))
       /\ (v = nan <-> (-3)%float = nan)
       /\ ((0 <? -3)%float = true -> (0 <? v)%float = true \/ v = 0%float)
       /\ ((-3 <? 0)%float = true ->
           (v <? 0)%float = true \/ v = (-0)%float).
Proof.
  split; [exact reference_pow_conforming|]. split; [reflexivity|].
  apply (getVolume_sign reference_pow (world_of (Num (-3))) 0%nat (-3)%float
           None reference_pow_conforming);
    reflexivity.
Defined.

Lemma integer_lengths_exact_witness :
  conforming reference_pow
  /\ -1000 <= 7 <= 1000
  /\ heap (world_of (Num (Number_of_Z 7))) !! 0%nat
     = Some (mkCube (Num (Number_of_Z 7)) None)
  /\ exists side s v,
       getSideLength 0%nat (world_of (Num (Number_of_Z 7)))
       = Some (Num side, world_of (Num (Number_of_Z 7)))
       /\ Z_of_Number side = Some 7
       /\ getSurfaceArea 0%nat (world_of (Num (Number_of_Z 7)))
          = Some (Num s, world_of (Num (Number_of_Z 7)))
       /\ Z_of_Number s = Some (6 * 7 * 7)
       /\ getVolume reference_pow 0%nat (world_of (Num (Number_of_Z 7)))
          = Some (Num v, world_of (Num (Number_of_Z 7)))
       /\ Z_of_Number v = Some (7 * 7 * 7).
Proof.
  split; [exact reference_pow_conforming|].
  split; [lia|]. split; [reflexivity|].
  apply (integer_lengths_exact reference_pow
           (world_of (Num (Number_of_Z 7))) 0%nat 7 None
           reference_pow_conforming);
    [lia|reflexivity].
Defined.

Lemma spy_changes_no_result_witness :
  exists w1,
    sinon_spy 0%nat (world_of (Num 2)) = Some (tt, w1)
    /\ fst <$> perform reference_pow (op_add (Num 1) (Num 2)) 0%nat w1
       = fst <$> perform reference_pow (op_add (Num 1) (Num 2)) 0%nat
                   (world_of (Num 2))
    /\ calls <$> (snd <$> perform reference_pow (op_add (Num 1) (Num 2))
                                  0%nat w1)
       = Some [mkCall 0%nat (Num 1) (Num 2)].
Proof.
  eexists. split; [reflexivity|]. split; [|reflexivity].
  apply (spy_changes_no_result reference_pow (world_of (Num 2)) _ 0%nat 0%nat
           (op_add (Num 1) (Num 2)) eq_refl).
Defined.

Lemma delegations_recorded_one_for_one_witness :
  heap (spied_world_of (Num 2)) !! 0%nat
  = Some (mkCube (Num 2) (Some (spy_on Cube_prototype_add)))
  /\ calls <$> (snd <$> run_script reference_pow
                          (delegations 0%nat [(Num 1, Num 2); (Num 3, Num 4)])
                          (spied_world_of (Num 2)))
     = Some [mkCall 0%nat (Num 1) (Num 2); mkCall 0%nat (Num 3) (Num 4)].
Proof.
  split; [reflexivity|].
  rewrite (proj1 (delegations_recorded_one_for_one reference_pow 0%nat
                    [(Num 1, Num 2); (Num 3, Num 4)]
                    (spied_world_of (Num 2))
                    (mkCube (Num 2) (Some (spy_on Cube_prototype_add)))
                    ltac:(reflexivity)) ltac:(reflexivity)).
  reflexivity.
Defined.

Lemma two_calls_of_testPromise_witness :
  well_formed (loop empty_world)
  /\ Forall forward [do_tick 3 400]
  /\ exists p w1 w2 q w3,
       testPromise 0%nat empty_world = Some (p, w1)
       /\ run_script reference_pow [do_tick 3 400] w1 = Some (tt, w2)
       /\ testPromise 0%nat w2 = Some (q, w3)
       /\ p <> q
       /\ forall after w4,
            Forall forward after ->
            run_script reference_pow after w3 = Some (tt, w4) ->
            fulfilled_from p (now (loop empty_world) + 1000) (loop w4)
            /\ fulfilled_from q (now (loop w2) + 1000) (loop w4).
Proof.
  assert (WF : well_formed (loop empty_world)) by (repeat split; constructor).
  assert (F : Forall forward [do_tick 3 400])
    by (repeat constructor; simpl; lia).
  split; [exact WF|]. split; [exact F|].
  eexists _, _, _, _, _.
  split; [reflexivity|]. split; [vm_compute; reflexivity|].
  split; [reflexivity|].
  eapply (two_calls_of_testPromise reference_pow empty_world _ _ _ 0%nat 0%nat
            _ _ [do_tick 3 400] WF F); [reflexivity|vm_compute; reflexivity|].
  reflexivity.
Defined.

Lemma reachable_worlds_are_well_formed_witness :
  exists w,
    run_script reference_pow
               [do_new (Num 2); do_call 0%nat op_testPromise; do_tick 3 500]
               empty_world = Some (tt, w)
    /\ well_formed (loop w).
Proof.
  eexists. split; [vm_compute; reflexivity|].
  apply (reachable_worlds_are_well_formed reference_pow
           [do_new (Num 2); do_call 0%nat op_testPromise; do_tick 3 500]).
  vm_compute. reflexivity.
Defined.

Lemma no_promise_is_ever_rejected_witness :
  exists w,
    run_script reference_pow
               [do_new (Num 2); do_call 0%nat op_testPromise; do_tick 3 1000]
               empty_world = Some (tt, w)
    /\ promise_state_of 1%nat (loop w) <> Some (Rejected Undefined).
Proof.
  eexists. split; [vm_compute; reflexivity|].
  apply (no_promise_is_ever_rejected reference_pow
           [do_new (Num 2); do_call 0%nat op_testPromise; do_tick 3 1000]
           _ 1%nat Undefined).
  vm_compute. reflexivity.
Defined.

(** ** The tests of the repository, run on the embedding *)

(** [test/cubeTest.js], tests 1 to 3. *)
Example test_side_length :
  run (let* c1 := new_Cube (Num 2) in getSideLength c1)
  = Some (Primitive (Num 2)).
Proof. reflexivity. Qed.

Example test_surface_area :
  run (let* c1 := new_Cube (Num 2) in getSurfaceArea c1)
  = Some (Primitive (Num 24)).
Proof. reflexivity. Qed.

Example test_volume :
  run (let* c1 := new_Cube (Num 2) in getVolume reference_pow c1)
  = Some (Primitive (Num 8)).
Proof. reflexivity. Qed.

(** Test 4: the spy on [add] has been called once. *)
Example test_spy :
  calls <$> (snd <$> (let* myObj := new_Cube (Num 2) in
                      let* _ := sinon_spy myObj in
                      callAanotherMethod myObj (Num 1) (Num 2)) empty_world)
  = Some [mkCall 0%nat (Num 1) (Num 2)].
Proof. reflexivity. Qed.

(** The promise test, one millisecond before the delay and at the delay. *)
Example test_promise :
  run (let* myObj := new_Cube (Num 2) in
       let* p := testPromise myObj in
       let* _ := tick 3 999 in
       fun w => Some (promise_state_of p (loop w), w))
  = Some (Some Pending)
  /\ run (let* myObj := new_Cube (Num 2) in
          let* p := testPromise myObj in
          let* _ := tick 3 1000 in
          fun w => Some (promise_state_of p (loop w), w))
     = Some (Some (Fulfilled (Num 6))).
Proof. split; reflexivity. Qed.

(** Lengths that are not Numbers are stored as they are.  [undefined],
    [null] and the booleans are converted where the arithmetic needs a
    Number; on a BigInt the surface area and the volume throw. *)
Example test_non_numeric :
  run (let* c := new_Cube Undefined in getSideLength c)
  = Some (Primitive Undefined)
  /\ run (let* c := new_Cube (Str [50%N]) in getSideLength c)
     = Some (Str [50%N])
  /\ run (let* c := new_Cube (Bool true) in getSurfaceArea c)
     = Some (Primitive (Num 6))
  /\ run (let* c := new_Cube Null in getVolume reference_pow c)
     = Some (Primitive (Num 0))
  /\ run (let* c := new_Cube (BigInt 2) in getSurfaceArea c) = None
  /\ run (let* c := new_Cube (BigInt 2) in getVolume reference_pow c) = None.
Proof. repeat split. Qed.

(** Both cases of the volume of a negative length occur: -8 at -2, and the
    negative zero at -2^-400, whose cube is too small for binary64. *)
Example volume_of_negative_lengths :
  getVolume reference_pow 0%nat (world_of (Num (-2)))
  = Some (Num (-8), world_of (Num (-2)))
  /\ getVolume reference_pow 0%nat (world_of (Num (-0x1p-400)))
     = Some (Num (-0), world_of (Num (-0x1p-400))).
Proof. split; reflexivity. Qed.

(** The reference host rounds to nearest, and a conforming host need not:
    the cube of 208065 is halfway between two binary64 numbers, either of
    which a conforming host may return. *)
Example cube_of_208065 :
  reference_pow 208065 3 = 9007351116674624%float
  /\ (forall pow, conforming pow ->
        pow 208065%float 3%float = 9007351116674624%float
        \/ pow 208065%float 3%float = 9007351116674626%float).
Proof.
  split; [reflexivity|]. intros pow C.
  destruct (C 208065%float) as [E|E]; [left|right]; apply Prim2SF_inj;
    rewrite E; reflexivity.
Qed.
